(** * Recursive list patterns of cheatsheet_Recursive_Patterns_FP_ES6.js

    A shallow embedding of the head/tail-recursive array utilities of the
    cheat sheet and of their reduce-based reformulations, followed by the
    properties stated about them.

    JavaScript arrays are lists.  The destructuring pattern [[x, ...xs]]
    binds [x] to the first element, or to [undefined] when the array is
    empty, and [xs] to the remaining elements; every recursion of the
    cheat sheet then tests [def(x)].  A [match] on the list with the base
    case in the [[]] branch and the same test on the head in the [x :: xs]
    branch is that recursion. *)

From Stdlib Require Import List ZArith Bool Lia Permutation Sorted.
Import ListNotations.

Set Implicit Arguments.
Set Warnings "-register-all".

(** ** Values *)

(** Numbers that the relational operators order: the two infinities and
    the finite numbers.  The code only compares numbers, so finite
    numbers are represented by integers; [Fin 0] is the zero [0], and
    [NegZero] is the zero [-0], a value of its own that compares as 0. *)
Inductive number : Type :=
  | NegInf
  | Fin (z : Z)
  | NegZero
  | PosInf.

(** The values the utilities are applied to: [undefined], [NaN] (which the
    relational operators never order), numbers and arrays.  The other
    values of the host ([null], booleans, strings, objects) are not part
    of the model. *)
Inductive value : Type :=
  | VUndef
  | VNaN
  | VNum (n : number)
  | VArr (xs : list value).

Definition Infinity : value := VNum PosInf.
Definition NegInfinity : value := VNum NegInf.

Definition num_ltb (a b : number) : bool :=
  match a, b with
  | NegInf, NegInf => false
  | NegInf, _ => true
  | _, NegInf => false
  | PosInf, _ => false
  | _, PosInf => true
  | Fin x, Fin y => (x <? y)%Z
  | Fin x, NegZero => (x <? 0)%Z
  | NegZero, Fin y => (0 <? y)%Z
  | NegZero, NegZero => false
  end.

Definition num_leb (a b : number) : bool :=
  match a, b with
  | NegInf, _ => true
  | _, NegInf => false
  | _, PosInf => true
  | PosInf, _ => false
  | Fin x, Fin y => (x <=? y)%Z
  | Fin x, NegZero => (x <=? 0)%Z
  | NegZero, Fin y => (0 <=? y)%Z
  | NegZero, NegZero => true
  end.

Definition num_eqb (a b : number) : bool :=
  match a, b with
  | NegInf, NegInf => true
  | PosInf, PosInf => true
  | Fin x, Fin y => (x =? y)%Z
  | Fin x, NegZero => (x =? 0)%Z
  | NegZero, Fin y => (0 =? y)%Z
  | NegZero, NegZero => true
  | _, _ => false
  end.

Definition num_le (a b : number) : Prop := num_leb a b = true.

(** The relational operators [<], [<=], [>] on values.  [undefined] is
    converted to [NaN], and a comparison with [NaN] is false.  An array
    operand would be converted through its string form, which is outside
    this model: the operators are only applied to numbers, [NaN] and
    [undefined] below, and quicksort's termination is proved for arbitrary
    comparison functions. *)
Definition js_lt (a b : value) : bool :=
  match a, b with
  | VNum x, VNum y => num_ltb x y
  | _, _ => false
  end.

Definition js_le (a b : value) : bool :=
  match a, b with
  | VNum x, VNum y => num_leb x y
  | _, _ => false
  end.

Definition js_gt (a b : value) : bool := js_lt b a.

(** [v === n] for a number [n]: strict equality never converts. *)
Definition strict_eq_num (v : value) (n : number) : bool :=
  match v with
  | VNum m => num_eqb m n
  | _ => false
  end.

(** Truthiness of a value in a condition. *)
Definition truthy (v : value) : bool :=
  match v with
  | VUndef | VNaN => false
  | VNum (Fin z) => negb (z =? 0)%Z
  | VNum NegZero => false
  | VNum _ => true
  | VArr _ => true
  end.

(** Truthiness of a count: zero is falsy. *)
Definition truthy_nat (n : nat) : bool := negb (n =? 0)%nat.

(** ** def, undef, head, tail *)

(** [def x] is [typeof x !== 'undefined'].  Arrays of values and argument
    lists of functions both go through the same recursions; a function is
    always defined. *)
Class Definable (A : Type) : Type := def : A -> bool.

#[global] Instance value_Definable : Definable value :=
  fun x => match x with VUndef => false | _ => true end.

#[global] Instance fun_Definable (A B : Type) : Definable (A -> B) :=
  fun _ => true.

Definition undef {A : Type} `{Definable A} (x : A) : bool := negb (def x).

Definition head (xs : list value) : value :=
  match xs with
  | [] => VUndef
  | x :: _ => x
  end.

Definition tail {A : Type} (xs : list A) : list A :=
  match xs with
  | [] => []
  | _ :: xs' => xs'
  end.

Definition isArray (x : value) : bool :=
  match x with
  | VArr _ => true
  | _ => false
  end.

(** [a[j]]: the element at an integer index, [undefined] out of range. *)
Definition index_at (a : list value) (j : Z) : value :=
  if (j <? 0)%Z then VUndef else nth (Z.to_nat j) a VUndef.

(** ** reduce (lines 237 and 404, the same text) *)

Fixpoint reduce {A M : Type} `{Definable A}
    (xs : list A) (fn : M -> A -> Z -> M) (memo : M) (i : Z) : M :=
  match xs with
  | [] => memo
  | x :: xs' => if def x then reduce xs' fn (fn memo x i) (i + 1)%Z else memo
  end.

(** ** The head/tail recursions *)

Module Direct.

Section Sequences.
Context {A : Type} `{Definable A}.

(** line 76, with the accumulator [len] *)
Fixpoint length_acc (xs : list A) (len : nat) : nat :=
  match xs with
  | [] => len
  | x :: xs' => if def x then length_acc xs' (len + 1) else len
  end.

(** line 78 *)
Fixpoint length (xs : list A) : nat :=
  match xs with
  | [] => 0
  | x :: xs' => if def x then 1 + length xs' else 0
  end.

(** line 89 *)
Fixpoint reverse (xs : list A) : list A :=
  match xs with
  | [] => []
  | x :: xs' => if def x then reverse xs' ++ [x] else []
  end.

(** line 107: [n] is tested for truthiness, a number is falsy when it
    is zero. *)
Fixpoint first (xs : list A) (n : Z) : list A :=
  match xs with
  | [] => []
  | x :: xs' =>
      if def x && negb (n =? 0)%Z then x :: first xs' (n - 1)%Z else []
  end.

(** [first(xs)]: the parameter [n] takes its default. *)
Definition first_default (xs : list A) : list A := first xs 1%Z.

(** line 116 *)
Definition last (xs : list A) (n : Z) : list A :=
  reverse (first (reverse xs) n).

(** line 123, with the position [curr] *)
Fixpoint slice_from (xs : list A) (i : Z) (y : A) (curr : Z) : list A :=
  match xs with
  | [] => []
  | x :: xs' =>
      if def x then
        if (curr =? i)%Z
        then y :: x :: slice_from xs' i y (curr + 1)%Z
        else x :: slice_from xs' i y (curr + 1)%Z
      else []
  end.

(** [slice(xs, i, y)]: the parameter [curr] takes its default. *)
Definition slice (xs : list A) (i : Z) (y : A) : list A :=
  slice_from xs i y 0%Z.

(** line 191: the predicate's result is tested for truthiness. *)
Fixpoint filter (xs : list A) (fn : A -> bool) : list A :=
  match xs with
  | [] => []
  | x :: xs' =>
      if def x then (if fn x then x :: filter xs' fn else filter xs' fn)
      else []
  end.

(** line 203 *)
Fixpoint reject (xs : list A) (fn : A -> bool) : list A :=
  match xs with
  | [] => []
  | x :: xs' =>
      if undef x then []
      else if negb (fn x) then x :: reject xs' fn else reject xs' fn
  end.

(** line 220 *)
Definition partition (xs : list A) (fn : A -> bool) : list A * list A :=
  (filter xs fn, reject xs fn).

End Sequences.

(** line 174 *)
Fixpoint map {A B : Type} `{Definable A} (xs : list A) (fn : A -> B)
    : list B :=
  match xs with
  | [] => []
  | x :: xs' => if def x then fn x :: map xs' fn else []
  end.

(** line 143.  The recursion enters the elements that are arrays, so it is
    written on the value that holds the array. *)
Fixpoint flatten_value (v : value) : list value :=
  match v with
  | VArr l =>
      (fix go (l : list value) : list value :=
         match l with
         | [] => []
         | x :: xs =>
             if def x then
               if isArray x then flatten_value x ++ go xs else x :: go xs
             else []
         end) l
  | _ => []
  end.

Definition flatten (xs : list value) : list value := flatten_value (VArr xs).

(** line 156.  The callback has two parameters [(x, y)]; [map] calls
    [fn(x)], so [y] is bound to [undefined]. *)
Definition swap_fn (a : list value) (i j : Z) (x y : value) : value :=
  if strict_eq_num y (Fin i) then index_at a j
  else if strict_eq_num y (Fin j) then index_at a i
  else x.

Definition swap (a : list value) (i j : Z) : list value :=
  map a (fun x => swap_fn a i j x VUndef).

(** line 309 *)
Definition flow {T : Type} (args : list (T -> T)) (init : T) : T :=
  reduce args (fun memo fn _ => fn memo) init 0%Z.

(** line 331 *)
Definition compose {T : Type} (args : list (T -> T)) : T -> T :=
  flow (reverse args).

(** line 344, with the running [result] *)
Fixpoint min_from (xs : list value) (result : value) : value :=
  match xs with
  | [] => result
  | x :: xs' =>
      if def x then (if js_lt x result then min_from xs' x else result)
      else result
  end.

Definition min (xs : list value) : value := min_from xs Infinity.

(** line 353 *)
Fixpoint max_from (xs : list value) (result : value) : value :=
  match xs with
  | [] => result
  | x :: xs' =>
      if def x then
        (if js_gt x result then max_from xs' x else max_from xs' result)
      else result
  end.

Definition max (xs : list value) : value := max_from xs NegInfinity.

(** Quicksort recurses on filtered tails, which is not structural: the
    model counts the depth of the calls down from [fuel] and answers
    [None] when it is used up. *)
Section Quicksort.
(** The relational operators [<=], [>] and [<] of the host. *)
Variables lte gt lt : value -> value -> bool.

(** line 380 *)
Fixpoint quicksort_fuel (fuel : nat) (xs : list value)
    : option (list value) :=
  match fuel with
  | O => None
  | S k =>
      if truthy_nat (length xs) then
        match quicksort_fuel k (filter (tail xs) (fun x => lte x (head xs))),
              quicksort_fuel k (filter (tail xs) (fun x => gt x (head xs)))
        with
        | Some smaller, Some larger =>
            Some (flatten [VArr smaller; head xs; VArr larger])
        | _, _ => None
        end
      else Some []
  end.

(** line 390 *)
Fixpoint quicksort_partition_fuel (fuel : nat) (array : list value)
    : option (list value) :=
  match fuel with
  | O => None
  | S k =>
      if negb (truthy_nat (length array)) then Some []
      else
        let '(less, more) :=
          partition (tail array) (fun x => lt x (head array)) in
        match quicksort_partition_fuel k less,
              quicksort_partition_fuel k more
        with
        | Some l, Some m => Some (flatten [VArr l; head array; VArr m])
        | _, _ => None
        end
  end.
End Quicksort.

(** The calls never go deeper than the array is long. *)
Definition quicksort (xs : list value) : option (list value) :=
  quicksort_fuel js_le js_gt (S (List.length xs)) xs.

Definition quicksort_partition (array : list value) : option (list value) :=
  quicksort_partition_fuel js_lt (S (List.length array)) array.

(** line 248 *)
Definition reduceRight {A M : Type} `{Definable A}
    (xs : list A) (fn : M -> A -> Z -> M) (memo : M) : M :=
  reduce (reverse xs) fn memo 0%Z.

(** Functions called with a variable number of arguments take the list
    of their arguments. *)

(** line 256 *)
Definition partial {V R : Type} (fn : list V -> R) (args : list V)
    : list V -> R :=
  fun newArgs => fn (args ++ newArgs).

(** line 266 *)
Definition spreadArg {V R : Type} (fn : list V -> R) : list V -> R :=
  fun args => fn args.

(** line 282 *)
Definition reverseArgs {V R : Type} `{Definable V} (fn : list V -> R)
    : list V -> R :=
  fun args => fn (reverse args).

(** line 363, on integers.  The recursion is on [x - 1] until [x] is
    falsy, which is not structural: the depth of the calls is counted
    down from [fuel]. *)
Fixpoint factorial_fuel (fuel : nat) (x acum : Z) : option Z :=
  match fuel with
  | O => None
  | S k =>
      if negb (x =? 0)%Z then factorial_fuel k (x - 1)%Z (x * acum)%Z
      else Some acum
  end.

(** line 369, on integers *)
Fixpoint fib_fuel (fuel : nat) (x : Z) : option Z :=
  match fuel with
  | O => None
  | S k =>
      if (2 <? x)%Z then
        match fib_fuel k (x - 1)%Z, fib_fuel k (x - 2)%Z with
        | Some a, Some b => Some (a + b)%Z
        | _, _ => None
        end
      else Some 1%Z
  end.

End Direct.

(** ** Everything as a reduction (lines 407 to 437) *)

Module Reduction.

Section Sequences.
Context {A : Type} `{Definable A}.

Definition reverse (xs : list A) : list A :=
  reduce xs (fun memo x _ => x :: memo) [] 0%Z.

Definition length (xs : list A) : nat :=
  reduce xs (fun memo _ _ => memo + 1) 0 0%Z.

Definition filter (xs : list A) (fn : A -> bool) : list A :=
  reduce xs (fun memo x _ => if fn x then memo ++ [x] else memo) [] 0%Z.

Definition reject (xs : list A) (fn : A -> bool) : list A :=
  reduce xs (fun memo x _ => if fn x then memo else memo ++ [x]) [] 0%Z.

(** line 419: [n] has no default here; [None] is the omitted argument,
    and [i < undefined] is false. *)
Definition first (xs : list A) (n : option Z) : list A :=
  reduce xs
    (fun memo x i =>
       if match n with Some n' => (i <? n')%Z | None => false end
       then memo ++ [x] else memo)
    [] 0%Z.
End Sequences.

Definition map {A B : Type} `{Definable A} (xs : list A) (fn : A -> B)
    : list B :=
  reduce xs (fun memo x _ => memo ++ [fn x]) [] 0%Z.

(** line 431.  The callback tests [x] for truthiness and answers the
    empty accumulator on a falsy element.  The recursion enters the
    elements that are arrays, so the fold of [reduce] is written out
    here; [Reduction.flatten_reduce] below gives it back as the call of
    [reduce] of the source. *)
Fixpoint flatten_value (v : value) : list value :=
  match v with
  | VArr l =>
      (fix go (l : list value) (memo : list value) : list value :=
         match l with
         | [] => memo
         | x :: xs =>
             if def x then
               go xs (if truthy x
                      then (if isArray x then memo ++ flatten_value x
                            else memo ++ [x])
                      else [])
             else memo
         end) l []
  | _ => []
  end.

Definition flatten (xs : list value) : list value := flatten_value (VArr xs).

(** An array is a defined value. *)
#[global] Instance list_Definable (A : Type) : Definable (list A) :=
  fun _ => true.

(** line 422: [length(xs)] is the reduce-based [length] above; [None] is
    the omitted [n], and a comparison with [length(xs) - undefined] is
    false. *)
Definition last {A : Type} `{Definable A} (xs : list A) (n : option Z)
    : list A :=
  reduce xs
    (fun memo x i =>
       if match n with
          | Some n' => (Z.of_nat (length xs) - n' <=? i)%Z
          | None => false
          end
       then memo ++ [x] else memo)
    [] 0%Z.

(** line 429: the arguments are arrays. *)
Definition merge {A : Type} : list (list A) -> list A :=
  Direct.spreadArg (fun xs => reduce xs (fun memo x _ => memo ++ x) [] 0%Z).

End Reduction.

(** ** Vocabulary of the statements *)

(** The elements of a sequence before its first undefined element. *)
Fixpoint defined_prefix {A : Type} `{Definable A} (xs : list A) : list A :=
  match xs with
  | [] => []
  | x :: xs' => if def x then x :: defined_prefix xs' else []
  end.

(** No element of the sequence is undefined. *)
Definition all_defined {A : Type} `{Definable A} (xs : list A) : Prop :=
  Forall (fun x => def x = true) xs.

(** A numeric sequence, as an array of values. *)
Definition numeric (s : list number) : list value := List.map VNum s.

(** The reading of [swap] in the specification, to compare the code
    with: both positions in range exchanges the two elements, anything
    else is an error. *)
Inductive error : Type :=
  | IndexOutOfRangeError.

Definition in_range (s : list value) (i : Z) : bool :=
  (0 <=? i)%Z && (i <? Z.of_nat (List.length s))%Z.

Definition exchanged (s : list value) (i j : Z) : list value :=
  List.map
    (fun k => if (Z.of_nat k =? i)%Z then index_at s j
              else if (Z.of_nat k =? j)%Z then index_at s i
              else nth k s VUndef)
    (seq 0 (List.length s)).

Definition swap_spec (s : list value) (i j : Z) : error + list value :=
  if in_range s i && in_range s j then inr (exchanged s i j)
  else inl IndexOutOfRangeError.

(** A number without the sign of its zero: [-0] becomes [0].  The
    relational operators and [===] do not tell the two zeros apart. *)
Definition unsigned_zero (a : number) : number :=
  match a with
  | NegZero => Fin 0
  | _ => a
  end.

(** No defined element that is not an array, at any depth, is falsy. *)
Fixpoint no_falsy (v : value) : bool :=
  match v with
  | VArr l => forallb no_falsy l
  | VUndef => true
  | _ => truthy v
  end.

(** A flat array: no element is undefined or an array. *)
Definition is_flat (l : list value) : Prop :=
  Forall (fun x => def x = true /\ isArray x = false) l.

(** The Fibonacci numbers, from 0, 1. *)
Fixpoint fibonacci (n : nat) : Z :=
  match n with
  | O => 0%Z
  | S m =>
      match m with
      | O => 1%Z
      | S k => (fibonacci m + fibonacci k)%Z
      end
  end.

(** The factorial of a natural number, as an integer. *)
Fixpoint factorial_of (n : nat) : Z :=
  match n with
  | O => 1%Z
  | S m => (Z.of_nat (S m) * factorial_of m)%Z
  end.

(** Two consecutive Fibonacci numbers, computed in one pass. *)
Fixpoint fibonacci_pair (n : nat) : Z * Z :=
  match n with
  | O => (0%Z, 1%Z)
  | S m => let '(a, b) := fibonacci_pair m in (b, (a + b)%Z)
  end.

(** * Properties *)

(** ** The defined prefix *)

Section PrefixFacts.
Context {A : Type} `{Definable A}.

Lemma defined_prefix_all (s : list A) :
  all_defined s -> defined_prefix s = s.
Proof.
  induction 1 as [|x s Hx _ IH]; simpl; [reflexivity|].
  now rewrite Hx, IH.
Qed.

Lemma defined_prefix_stop (s t : list A) (u : A) :
  all_defined s -> def u = false -> defined_prefix (s ++ u :: t) = s.
Proof.
  intros Hs Hu; induction Hs as [|x s Hx _ IH]; simpl.
  - now rewrite Hu.
  - now rewrite Hx, IH.
Qed.

Lemma defined_prefix_defined (s : list A) : all_defined (defined_prefix s).
Proof.
  induction s as [|x s IH]; simpl; [constructor|].
  destruct (def x) eqn:Hx; constructor; assumption.
Qed.

Lemma defined_prefix_idem (s : list A) :
  defined_prefix (defined_prefix s) = defined_prefix s.
Proof. apply defined_prefix_all, defined_prefix_defined. Qed.

Lemma length_prefix (s : list A) :
  Direct.length s = List.length (defined_prefix s).
Proof.
  induction s as [|x s IH]; simpl; [reflexivity|].
  destruct (def x); simpl; congruence.
Qed.

Lemma length_acc_prefix (s : list A) (len : nat) :
  Direct.length_acc s len = len + List.length (defined_prefix s).
Proof.
  revert len; induction s as [|x s IH]; intros len; simpl; [lia|].
  destruct (def x); simpl; [rewrite IH|]; lia.
Qed.

Lemma reverse_prefix (s : list A) :
  Direct.reverse s = rev (defined_prefix s).
Proof.
  induction s as [|x s IH]; simpl; [reflexivity|].
  destruct (def x); simpl; congruence.
Qed.

Lemma filter_prefix (s : list A) (fn : A -> bool) :
  Direct.filter s fn = List.filter fn (defined_prefix s).
Proof.
  induction s as [|x s IH]; simpl; [reflexivity|].
  destruct (def x); simpl; [|reflexivity].
  destruct (fn x); congruence.
Qed.

Lemma reject_prefix (s : list A) (fn : A -> bool) :
  Direct.reject s fn = List.filter (fun x => negb (fn x)) (defined_prefix s).
Proof.
  induction s as [|x s IH]; simpl; [reflexivity|].
  unfold undef; destruct (def x); simpl; [|reflexivity].
  destruct (fn x); simpl; congruence.
Qed.

Lemma reduce_prefix (M : Type) (s : list A) (fn : M -> A -> Z -> M)
    (memo : M) (i : Z) :
  reduce s fn memo i = reduce (defined_prefix s) fn memo i.
Proof.
  revert memo i; induction s as [|x s IH]; intros memo i; simpl;
    [reflexivity|].
  destruct (def x) eqn:Hx; simpl; [|reflexivity].
  now rewrite Hx, IH.
Qed.

(** On a sequence without undefined elements, [reduce] is the left fold
    that ignores the position when the callback does. *)
Lemma reduce_fold (M : Type) (s : list A) (f : M -> A -> M) (memo : M)
    (i : Z) :
  reduce s (fun m x _ => f m x) memo i = fold_left f (defined_prefix s) memo.
Proof.
  revert memo i; induction s as [|x s IH]; intros memo i; simpl;
    [reflexivity|].
  destruct (def x); simpl; [apply IH|reflexivity].
Qed.
End PrefixFacts.

Lemma map_prefix {A B : Type} `{Definable A} (s : list A) (fn : A -> B) :
  Direct.map s fn = List.map fn (defined_prefix s).
Proof.
  induction s as [|x s IH]; simpl; [reflexivity|].
  destruct (def x); simpl; congruence.
Qed.

Section FirstSliceFacts.
Context {A : Type} `{Definable A}.

Lemma first_prefix (s : list A) (n : Z) :
  Direct.first s n = Direct.first (defined_prefix s) n.
Proof.
  revert n; induction s as [|x s IH]; intros n; simpl; [reflexivity|].
  destruct (def x) eqn:Hx; simpl; [|reflexivity].
  rewrite Hx; simpl. destruct (n =? 0)%Z; simpl; [reflexivity|].
  now rewrite IH.
Qed.

Lemma slice_from_prefix (s : list A) (i : Z) (y : A) (curr : Z) :
  Direct.slice_from s i y curr = Direct.slice_from (defined_prefix s) i y curr.
Proof.
  revert curr; induction s as [|x s IH]; intros curr; simpl; [reflexivity|].
  destruct (def x) eqn:Hx; simpl; [|reflexivity].
  rewrite Hx. now rewrite IH.
Qed.
End FirstSliceFacts.

(** ** flatten, min and max on values *)

Lemma flatten_nil : Direct.flatten [] = [].
Proof. reflexivity. Qed.

Lemma flatten_cons (x : value) (xs : list value) :
  Direct.flatten (x :: xs) =
  if def x then
    if isArray x then Direct.flatten_value x ++ Direct.flatten xs
    else x :: Direct.flatten xs
  else [].
Proof. reflexivity. Qed.

Lemma flatten_value_arr (l : list value) :
  Direct.flatten_value (VArr l) = Direct.flatten l.
Proof. reflexivity. Qed.

Lemma flatten_prefix (s : list value) :
  Direct.flatten s = Direct.flatten (defined_prefix s).
Proof.
  induction s as [|x s IH]; [reflexivity|].
  rewrite flatten_cons; simpl defined_prefix.
  destruct (def x) eqn:Hx; [|reflexivity].
  rewrite flatten_cons, Hx, IH; reflexivity.
Qed.

Lemma flatten_numeric (s : list number) :
  Direct.flatten (numeric s) = numeric s.
Proof.
  induction s as [|n s IH]; [reflexivity|].
  simpl numeric; rewrite flatten_cons; simpl.
  now rewrite IH.
Qed.

Lemma min_from_prefix (s : list value) (result : value) :
  Direct.min_from s result = Direct.min_from (defined_prefix s) result.
Proof.
  revert result; induction s as [|x s IH]; intros result; simpl;
    [reflexivity|].
  destruct (def x) eqn:Hx; simpl; [|reflexivity].
  rewrite Hx. destruct (js_lt x result); [apply IH|reflexivity].
Qed.

Lemma max_from_prefix (s : list value) (result : value) :
  Direct.max_from s result = Direct.max_from (defined_prefix s) result.
Proof.
  revert result; induction s as [|x s IH]; intros result; simpl;
    [reflexivity|].
  destruct (def x) eqn:Hx; simpl; [|reflexivity].
  rewrite Hx. destruct (js_gt x result); apply IH.
Qed.

(** ** The reduce-based definitions, in closed form *)

Section ReductionFacts.
Context {A : Type} `{Definable A}.

Lemma reduce_cons_acc (s : list A) (memo : list A) (i : Z) :
  reduce s (fun m x _ => x :: m) memo i = rev (defined_prefix s) ++ memo.
Proof.
  revert memo i; induction s as [|x s IH]; intros memo i; simpl;
    [reflexivity|].
  destruct (def x); simpl; [|reflexivity].
  now rewrite IH, <- app_assoc.
Qed.

Lemma reduce_count_acc (s : list A) (memo : nat) (i : Z) :
  reduce s (fun m _ _ => m + 1) memo i = memo + List.length (defined_prefix s).
Proof.
  revert memo i; induction s as [|x s IH]; intros memo i; simpl; [lia|].
  destruct (def x); simpl; [rewrite IH|]; lia.
Qed.

Lemma reduce_keep_acc (s : list A) (fn : A -> bool) (memo : list A) (i : Z) :
  reduce s (fun m x _ => if fn x then m ++ [x] else m) memo i =
  memo ++ List.filter fn (defined_prefix s).
Proof.
  revert memo i; induction s as [|x s IH]; intros memo i; simpl;
    [now rewrite app_nil_r|].
  destruct (def x); simpl; [|now rewrite app_nil_r].
  rewrite IH. destruct (fn x); [now rewrite <- app_assoc|reflexivity].
Qed.

Lemma reduce_drop_acc (s : list A) (fn : A -> bool) (memo : list A) (i : Z) :
  reduce s (fun m x _ => if fn x then m else m ++ [x]) memo i =
  memo ++ List.filter (fun x => negb (fn x)) (defined_prefix s).
Proof.
  revert memo i; induction s as [|x s IH]; intros memo i; simpl;
    [now rewrite app_nil_r|].
  destruct (def x); simpl; [|now rewrite app_nil_r].
  rewrite IH. destruct (fn x); simpl; [reflexivity|now rewrite <- app_assoc].
Qed.

Lemma reduction_reverse_prefix (s : list A) :
  Reduction.reverse s = rev (defined_prefix s).
Proof. unfold Reduction.reverse. now rewrite reduce_cons_acc, app_nil_r. Qed.
End ReductionFacts.

Lemma reduce_snoc_acc {A B : Type} `{Definable A} (s : list A) (fn : A -> B)
    (memo : list B) (i : Z) :
  reduce s (fun m x _ => m ++ [fn x]) memo i =
  memo ++ List.map fn (defined_prefix s).
Proof.
  revert memo i; induction s as [|x s IH]; intros memo i; simpl;
    [now rewrite app_nil_r|].
  destruct (def x); simpl; [|now rewrite app_nil_r].
  now rewrite IH, <- app_assoc.
Qed.

(** ** C3: direct recursion and reduction agree *)

(** C3. For every sequence [s], every function [fn] and every predicate
    [p], the head/tail-recursive [reverse], [length] (with and without
    accumulator), [map], [filter] and [reject] return the same results
    as their reduce-based formulations. *)
Theorem fold_equivalence (A B : Type) `{Definable A}
    (s : list A) (fn : A -> B) (p : A -> bool) :
  Direct.reverse s = Reduction.reverse s /\
  Direct.length s = Reduction.length s /\
  Direct.length_acc s 0 = Reduction.length s /\
  Direct.map s fn = Reduction.map s fn /\
  Direct.filter s p = Reduction.filter s p /\
  Direct.reject s p = Reduction.reject s p.
Proof.
  repeat split.
  - now rewrite reverse_prefix, reduction_reverse_prefix.
  - unfold Reduction.length. now rewrite length_prefix, reduce_count_acc.
  - unfold Reduction.length. now rewrite length_acc_prefix, reduce_count_acc.
  - unfold Reduction.map. now rewrite map_prefix, reduce_snoc_acc.
  - unfold Reduction.filter. now rewrite filter_prefix, reduce_keep_acc.
  - unfold Reduction.reject. now rewrite reject_prefix, reduce_drop_acc.
Qed.

(** ** C4: reverse twice *)

Lemma reverse_reverse_prefix {A : Type} `{Definable A} (s : list A) :
  Direct.reverse (Direct.reverse s) = defined_prefix s /\
  Reduction.reverse (Reduction.reverse s) = defined_prefix s.
Proof.
  assert (E : defined_prefix (rev (defined_prefix s)) = rev (defined_prefix s)).
  { apply defined_prefix_all. unfold all_defined.
    apply Forall_rev, defined_prefix_defined. }
  split.
  - now rewrite !reverse_prefix, E, rev_involutive.
  - now rewrite !reduction_reverse_prefix, E, rev_involutive.
Qed.

(** C4, as the code has it. For every finite sequence [s] that contains
    no undefined element, [reverse (reverse s)] is [s], for the direct and
    for the reduce-based [reverse]. *)
Theorem reverse_involutive_defined (A : Type) `{Definable A} (s : list A) :
  all_defined s ->
  Direct.reverse (Direct.reverse s) = s /\
  Reduction.reverse (Reduction.reverse s) = s.
Proof.
  intros Hs. destruct (reverse_reverse_prefix s) as [E1 E2].
  now rewrite E1, E2, defined_prefix_all.
Qed.

Lemma reverse_involutive_defined_witness :
  all_defined [VNum (Fin 1); VArr []; VNaN] /\
  Direct.reverse (Direct.reverse [VNum (Fin 1); VArr []; VNaN])
    = [VNum (Fin 1); VArr []; VNaN] /\
  Reduction.reverse (Reduction.reverse [VNum (Fin 1); VArr []; VNaN])
    = [VNum (Fin 1); VArr []; VNaN].
Proof.
  assert (Hs : all_defined [VNum (Fin 1); VArr []; VNaN])
    by (repeat constructor).
  split; [exact Hs|].
  exact (reverse_involutive_defined Hs).
Defined.

(** C4, as stated, fails on a sequence with an undefined element: the
    recursion stops there, and reversing twice returns the elements
    before it. *)
Lemma reverse_not_involutive :
  Direct.reverse (Direct.reverse [VNum (Fin 1); VUndef; VNum (Fin 2)])
    = [VNum (Fin 1)] /\
  Direct.reverse (Direct.reverse [VNum (Fin 1); VUndef; VNum (Fin 2)])
    <> [VNum (Fin 1); VUndef; VNum (Fin 2)].
Proof. split; [reflexivity|discriminate]. Qed.

(** ** C10: an undefined element ends the input *)

Section UndefinedEndsInput.
Context {A : Type} `{Definable A}.
Variables (s t : list A) (u : A).
Hypothesis s_defined : all_defined s.
Hypothesis u_undefined : def u = false.

Let cut : defined_prefix (s ++ [u] ++ t) = s.
Proof. now apply defined_prefix_stop. Qed.

Let whole : defined_prefix s = s.
Proof. now apply defined_prefix_all. Qed.

Lemma length_stops :
  Direct.length (s ++ [u] ++ t) = List.length s /\
  Direct.length_acc (s ++ [u] ++ t) 0 = List.length s /\
  Reduction.length (s ++ [u] ++ t) = List.length s.
Proof.
  unfold Reduction.length.
  now rewrite length_prefix, length_acc_prefix, reduce_count_acc, cut.
Qed.

Lemma length_whole :
  Direct.length s = List.length s /\
  Direct.length_acc s 0 = List.length s.
Proof. now rewrite length_prefix, length_acc_prefix, whole. Qed.

Lemma reverse_stops :
  Direct.reverse (s ++ [u] ++ t) = rev s /\ Direct.reverse s = rev s.
Proof. now rewrite !reverse_prefix, cut, whole. Qed.

Lemma map_stops (B : Type) (fn : A -> B) :
  Direct.map (s ++ [u] ++ t) fn = List.map fn s /\
  Direct.map s fn = List.map fn s.
Proof. now rewrite !map_prefix, cut, whole. Qed.

Lemma filter_reject_stop (p : A -> bool) :
  Direct.filter (s ++ [u] ++ t) p = Direct.filter s p /\
  Direct.reject (s ++ [u] ++ t) p = Direct.reject s p.
Proof. now rewrite !filter_prefix, !reject_prefix, cut, whole. Qed.

Lemma reduce_stops (M : Type) (f : M -> A -> Z -> M) (memo : M) (i : Z) :
  reduce (s ++ [u] ++ t) f memo i = reduce s f memo i.
Proof. now rewrite reduce_prefix, cut. Qed.

Lemma first_slice_stop (n i : Z) (y : A) :
  Direct.first (s ++ [u] ++ t) n = Direct.first s n /\
  Direct.slice (s ++ [u] ++ t) i y = Direct.slice s i y.
Proof.
  unfold Direct.slice. now rewrite first_prefix, slice_from_prefix, cut.
Qed.
End UndefinedEndsInput.

Lemma value_recursions_stop (s t : list value) (result : value) :
  all_defined s ->
  Direct.flatten (s ++ [VUndef] ++ t) = Direct.flatten s /\
  Direct.min_from (s ++ [VUndef] ++ t) result = Direct.min_from s result /\
  Direct.max_from (s ++ [VUndef] ++ t) result = Direct.max_from s result.
Proof.
  intros Hs.
  assert (cut : defined_prefix (s ++ [VUndef] ++ t) = s)
    by now apply defined_prefix_stop.
  now rewrite flatten_prefix, min_from_prefix, max_from_prefix, cut.
Qed.

(** C10. A def-guarded recursion treats an undefined element as the end
    of its input: when [s] has no undefined element and [u] is undefined,
    [length], [reverse], [map], [filter], [reject], [reduce], [first] and
    [slice] applied to [s ++ [u] ++ t] process exactly the elements of [s]
    ([length (s ++ [u] ++ t)] is the number of elements of [s], [map] maps
    the elements of [s], [reverse] reverses them), and [flatten], [min]
    and [max] do the same on arrays of values. *)
Theorem undefined_ends_input (A B M : Type) `{Definable A}
    (s t : list A) (u : A) (fn : A -> B) (p : A -> bool)
    (f : M -> A -> Z -> M) (memo : M) (n i : Z) (y : A)
    (vs vt : list value) (result : value) :
  all_defined s -> def u = false -> all_defined vs ->
  (Direct.length (s ++ [u] ++ t) = Direct.length s /\
   Direct.length s = List.length s) /\
  (Direct.length_acc (s ++ [u] ++ t) 0 = Direct.length_acc s 0 /\
   Direct.length_acc s 0 = List.length s) /\
  (Direct.map (s ++ [u] ++ t) fn = Direct.map s fn /\
   Direct.map s fn = List.map fn s) /\
  (Direct.reverse (s ++ [u] ++ t) = Direct.reverse s /\
   Direct.reverse s = rev s) /\
  Direct.filter (s ++ [u] ++ t) p = Direct.filter s p /\
  Direct.reject (s ++ [u] ++ t) p = Direct.reject s p /\
  reduce (s ++ [u] ++ t) f memo i = reduce s f memo i /\
  Direct.first (s ++ [u] ++ t) n = Direct.first s n /\
  Direct.slice (s ++ [u] ++ t) i y = Direct.slice s i y /\
  Direct.flatten (vs ++ [VUndef] ++ vt) = Direct.flatten vs /\
  Direct.min_from (vs ++ [VUndef] ++ vt) result = Direct.min_from vs result /\
  Direct.max_from (vs ++ [VUndef] ++ vt) result = Direct.max_from vs result.
Proof.
  intros Hs Hu Hvs.
  destruct (length_stops t u Hs Hu) as (L1 & L2 & _).
  destruct (length_whole Hs) as (L3 & L4).
  destruct (reverse_stops t u Hs Hu) as (R1 & R2).
  destruct (map_stops t u Hs Hu fn) as (M1 & M2).
  destruct (filter_reject_stop t u Hs Hu p) as (F1 & F2).
  destruct (first_slice_stop t u Hs Hu n i y) as (S1 & S2).
  destruct (value_recursions_stop vt result Hvs) as (V1 & V2 & V3).
  pose proof (reduce_stops t u Hs Hu f memo i) as Rd.
  repeat split; congruence.
Qed.

Lemma undefined_ends_input_witness :
  all_defined [VNum (Fin 1); VNum (Fin 2)] /\
  Direct.length ([VNum (Fin 1); VNum (Fin 2)] ++ [VUndef] ++ [VNum (Fin 3)])
    = Direct.length [VNum (Fin 1); VNum (Fin 2)] /\
  Direct.reverse ([VNum (Fin 1); VNum (Fin 2)] ++ [VUndef] ++ [VNum (Fin 3)])
    = Direct.reverse [VNum (Fin 1); VNum (Fin 2)].
Proof.
  assert (Hs : all_defined [VNum (Fin 1); VNum (Fin 2)])
    by (repeat constructor).
  split; [exact Hs|].
  pose proof (@undefined_ends_input value value value _
                [VNum (Fin 1); VNum (Fin 2)] [VNum (Fin 3)] VUndef
                (fun x => x) (fun _ => true) (fun m _ _ => m) VUndef 1%Z 0%Z
                VUndef [VNum (Fin 1); VNum (Fin 2)] [VNum (Fin 3)] VUndef
                Hs eq_refl Hs) as W.
  split; [apply W|apply W].
Defined.

(** ** C8: flow and compose *)

Lemma functions_all_defined {T : Type} (fs : list (T -> T)) : all_defined fs.
Proof. induction fs; constructor; [reflexivity|assumption]. Qed.

Lemma flow_fold {T : Type} (fs : list (T -> T)) (x : T) :
  Direct.flow fs x = fold_left (fun memo fn => fn memo) fs x.
Proof.
  unfold Direct.flow.
  rewrite (reduce_fold fs (fun (memo : T) (fn : T -> T) => fn memo) x 0).
  now rewrite (defined_prefix_all (functions_all_defined fs)).
Qed.

Lemma compose_fold {T : Type} (fs : list (T -> T)) (x : T) :
  Direct.compose fs x = fold_right (fun fn memo => fn memo) x fs.
Proof.
  unfold Direct.compose.
  rewrite flow_fold, reverse_prefix.
  rewrite (defined_prefix_all (functions_all_defined fs)).
  now rewrite <- fold_left_rev_right, rev_involutive.
Qed.

(** C8. For all unary functions [f], [g], [h] and every input [x],
    [compose(f, g, h)(x)] is [f (g (h x))] and [flow(f, g, h)(x)] is
    [h (g (f x))]; in general [flow] applies its functions from left to
    right, and [compose] is [flow] on the reversed function sequence. *)
Theorem composition_law (T : Type) (f g h : T -> T) (x : T) :
  Direct.compose [f; g; h] x = f (g (h x)) /\
  Direct.flow [f; g; h] x = h (g (f x)) /\
  (forall fs : list (T -> T),
     Direct.flow fs x = fold_left (fun memo fn => fn memo) fs x /\
     Direct.compose fs x = Direct.flow (rev fs) x).
Proof.
  split; [reflexivity|split; [reflexivity|]].
  intros fs; split; [apply flow_fold|].
  unfold Direct.compose. rewrite reverse_prefix.
  now rewrite (defined_prefix_all (functions_all_defined fs)).
Qed.

(** ** C2: min and max *)

Lemma num_leb_refl (a : number) : num_leb a a = true.
Proof. destruct a; simpl; trivial. apply Z.leb_refl. Qed.

Lemma num_ltb_leb (a b : number) : num_ltb a b = negb (num_leb b a).
Proof.
  destruct a, b; simpl; trivial; apply Z.ltb_antisym.
Qed.

Lemma num_leb_trans (a b c : number) :
  num_leb a b = true -> num_leb b c = true -> num_leb a c = true.
Proof.
  destruct a, b, c; simpl; trivial; try discriminate;
    rewrite ?Z.leb_le; lia.
Qed.

Lemma num_leb_total (a b : number) :
  num_leb a b = false -> num_leb b a = true.
Proof.
  destruct a, b; simpl; trivial; try discriminate;
    rewrite ?Z.leb_gt, ?Z.leb_le; lia.
Qed.

(** Two numbers that are below each other are the same number, up to the
    sign of a zero. *)
Lemma num_leb_antisym (a b : number) :
  num_leb a b = true -> num_leb b a = true ->
  unsigned_zero a = unsigned_zero b.
Proof.
  destruct a, b; simpl; trivial; try discriminate;
    rewrite ?Z.leb_le; intros; f_equal; lia.
Qed.

Lemma num_leb_unsigned_zero (a b : number) :
  num_leb (unsigned_zero a) (unsigned_zero b) = num_leb a b.
Proof. destruct a, b; reflexivity. Qed.

Lemma min_empty : Direct.min [] = Infinity.
Proof. reflexivity. Qed.

Lemma max_empty : Direct.max [] = NegInfinity.
Proof. reflexivity. Qed.

(** [max] keeps going after an element that is not larger, and so sees
    every element. *)
Lemma max_from_numeric (s : list number) (r : number) :
  exists m,
    Direct.max_from (numeric s) (VNum r) = VNum m /\
    (m = r \/ In m s) /\
    num_le r m /\
    Forall (fun x => num_le x m) s.
Proof.
  revert r; induction s as [|x s IH]; intros r; simpl.
  - exists r; repeat split; [now left|apply num_leb_refl|constructor].
  - unfold js_gt; simpl. rewrite num_ltb_leb.
    destruct (num_leb x r) eqn:Hxr; simpl.
    + destruct (IH r) as (m & E & Hm & Hr & Hall).
      exists m; repeat split; trivial.
      * destruct Hm; [now left|right; now right].
      * constructor; [|assumption].
        unfold num_le in *; eapply num_leb_trans; eassumption.
    + destruct (IH x) as (m & E & Hm & Hx & Hall).
      exists m; repeat split; trivial.
      * right. destruct Hm; [left; congruence|now right].
      * unfold num_le in *. apply num_leb_total in Hxr.
        eapply num_leb_trans; eassumption.
      * constructor; assumption.
Qed.

(** On a non-empty numeric sequence, [max] returns an element of the
    sequence that no element exceeds. *)
Lemma max_is_largest (x : number) (s : list number) :
  exists m,
    Direct.max (numeric (x :: s)) = VNum m /\
    In m (x :: s) /\
    Forall (fun y => num_le y m) (x :: s).
Proof.
  destruct (max_from_numeric (x :: s) NegInf) as (m & E & Hm & _ & Hall).
  exists m; repeat split; trivial.
  destruct Hm as [->|Hm]; [|assumption].
  inversion Hall as [|? ? Hx _]; subst.
  left. destruct x; trivial; discriminate.
Qed.

(** C2. [min] returns its running result as soon as an element is not
    smaller than it, without looking at the rest of the sequence: on
    [[2, 3, 1]] it returns 2, and the smallest element is 1.  ([max],
    beside it, goes on with [max(xs, result)].) *)
Theorem min_stops_at_first_rise :
  Direct.min (numeric [Fin 2; Fin 3; Fin 1]) = VNum (Fin 2) /\
  In (Fin 1) [Fin 2; Fin 3; Fin 1] /\
  num_ltb (Fin 1) (Fin 2) = true /\
  Direct.max (numeric [Fin 2; Fin 3; Fin 1]) = VNum (Fin 3).
Proof. repeat split; simpl; auto. Qed.

(** What [min] returns in general: the first element that the next
    element does not go below. *)
Lemma min_from_rise (x y : number) (s : list number) (r : value) :
  js_lt (VNum x) r = true ->
  num_leb x y = true ->
  Direct.min_from (numeric (x :: y :: s)) r = VNum x.
Proof.
  intros Hx Hxy; unfold numeric; cbn -[js_lt]. rewrite Hx.
  cbn. now rewrite num_ltb_leb, Hxy.
Qed.

(** ** C5: first *)

Section FirstFacts.
Context {A : Type} `{Definable A}.

Lemma firstn_prefix_min (s : list A) (k : nat) :
  firstn (Nat.min k (Direct.length s)) s = firstn k (defined_prefix s).
Proof.
  revert k; induction s as [|x s IH]; intros k.
  - now rewrite !firstn_nil.
  - simpl Direct.length; simpl defined_prefix. destruct (def x).
    + destruct k as [|k]; simpl; [reflexivity|]. now rewrite IH.
    + now rewrite Nat.min_0_r, firstn_nil.
Qed.

(** With a count that is not negative, [first] is as described. *)
Lemma first_nonnegative (s : list A) (n : Z) :
  (0 <= n)%Z ->
  Direct.first s n = firstn (Nat.min (Z.to_nat n) (Direct.length s)) s.
Proof.
  rewrite firstn_prefix_min.
  revert n; induction s as [|x s IH]; intros n Hn; simpl.
  - now rewrite firstn_nil.
  - destruct (def x); simpl; [|now rewrite firstn_nil].
    destruct (Z.eqb_spec n 0) as [->|Hne]; simpl; [reflexivity|].
    rewrite IH by lia.
    replace (Z.to_nat n) with (S (Z.to_nat (n - 1))) by lia.
    reflexivity.
Qed.

(** A negative count never reaches zero: the whole sequence is
    returned. *)
Lemma first_negative (s : list A) (n : Z) :
  (n < 0)%Z -> Direct.first s n = defined_prefix s.
Proof.
  revert n; induction s as [|x s IH]; intros n Hn; simpl; [reflexivity|].
  destruct (def x); simpl; [|reflexivity].
  destruct (Z.eqb_spec n 0) as [->|Hne]; [lia|simpl].
  now rewrite IH by lia.
Qed.

Lemma reduce_first_acc (s : list A) (n : Z) (memo : list A) (i : Z) :
  reduce s (fun m x k => if (k <? n)%Z then m ++ [x] else m) memo i =
  memo ++ firstn (Z.to_nat (n - i)) (defined_prefix s).
Proof.
  revert memo i; induction s as [|x s IH]; intros memo i; simpl.
  - now rewrite firstn_nil, app_nil_r.
  - destruct (def x); simpl; [|now rewrite firstn_nil, app_nil_r].
    rewrite IH. destruct (Z.ltb_spec i n) as [Hlt|Hge].
    + replace (Z.to_nat (n - i)) with (S (Z.to_nat (n - (i + 1)))) by lia.
      simpl. now rewrite <- app_assoc.
    + replace (Z.to_nat (n - (i + 1))) with 0 by lia.
      replace (Z.to_nat (n - i)) with 0 by lia.
      reflexivity.
Qed.

Lemma reduce_keep_memo (M : Type) (s : list A) (memo : M) (i : Z) :
  reduce s (fun m _ _ => m) memo i = memo.
Proof.
  revert i; induction s as [|x s IH]; intros i; simpl; [reflexivity|].
  destruct (def x); [apply IH|reflexivity].
Qed.

(** The reduce-based [first] is as described for every given count,
    and returns the empty sequence when the count is omitted. *)
Lemma reduction_first_spec (s : list A) (n : Z) :
  (Reduction.first s (Some n) =
     firstn (Nat.min (Z.to_nat n) (Direct.length s)) s) /\
  (Reduction.first s None = []).
Proof.
  split; unfold Reduction.first.
  - now rewrite reduce_first_acc, firstn_prefix_min, Z.sub_0_r.
  - apply (reduce_keep_memo s (@nil A) 0).
Qed.
End FirstFacts.

(** C5. The direct [first] tests its count for truthiness, and a
    negative count is truthy at every step: [first([1, 2, 3], -1)] is the
    whole sequence, where the claim (and the reduce-based [first]) give
    the empty sequence.  The reduce-based [first] in turn has no default
    count: with the count omitted it returns the empty sequence, where
    the direct one returns the first element. *)
Theorem first_negative_count :
  Direct.first (numeric [Fin 1; Fin 2; Fin 3]) (-1) =
    numeric [Fin 1; Fin 2; Fin 3] /\
  Reduction.first (numeric [Fin 1; Fin 2; Fin 3]) (Some (-1)%Z) = [] /\
  Direct.first_default (numeric [Fin 1; Fin 2; Fin 3]) = numeric [Fin 1] /\
  Reduction.first (numeric [Fin 1; Fin 2; Fin 3]) None = [].
Proof. repeat split. Qed.

(** ** C6: slice *)

Section SliceFacts.
Context {A : Type} `{Definable A}.

(** A position that the counter has passed, or never reaches, matches
    no element: nothing is inserted. *)
Lemma slice_from_outside (s : list A) (i : Z) (y : A) (curr : Z) :
  (i < curr \/ curr + Z.of_nat (Direct.length s) <= i)%Z ->
  Direct.slice_from s i y curr = defined_prefix s.
Proof.
  revert curr; induction s as [|x s IH]; intros curr Hi; simpl;
    [reflexivity|].
  simpl in Hi. destruct (def x); [|reflexivity].
  destruct (Z.eqb_spec curr i) as [->|Hne]; [lia|].
  rewrite IH by lia. reflexivity.
Qed.

Lemma slice_from_inside (s : list A) (i : Z) (y : A) (curr : Z) :
  (curr <= i < curr + Z.of_nat (Direct.length s))%Z ->
  Direct.slice_from s i y curr =
  firstn (Z.to_nat (i - curr)) (defined_prefix s) ++
  y :: skipn (Z.to_nat (i - curr)) (defined_prefix s).
Proof.
  revert curr; induction s as [|x s IH]; intros curr Hi; simpl in *;
    [lia|].
  destruct (def x); [|simpl in Hi; lia].
  destruct (Z.eqb_spec curr i) as [->|Hne].
  - rewrite slice_from_outside by lia.
    now rewrite Z.sub_diag.
  - rewrite IH by lia.
    replace (Z.to_nat (i - curr)) with (S (Z.to_nat (i - (curr + 1))))
      by lia.
    reflexivity.
Qed.
End SliceFacts.

(** [v] put immediately before position [k] of [p]. *)
Lemma insert_before_length {A : Type} (p : list A) (k : nat) (v : A) :
  k < List.length p ->
  List.length (firstn k p ++ v :: skipn k p) = S (List.length p) /\
  nth_error (firstn k p ++ v :: skipn k p) k = Some v /\
  firstn k p ++ skipn k p = p.
Proof.
  intros Hk. repeat split.
  - rewrite length_app; simpl. rewrite length_firstn, length_skipn. lia.
  - rewrite nth_error_app2; rewrite length_firstn; [|lia].
    now replace (k - Nat.min k (List.length p)) with 0 by lia.
  - apply firstn_skipn.
Qed.

(** [slice] (line 123) in closed form.  With [p] the elements of [s]
    before its first undefined element ([s] itself when it has none) and
    [length s] their number: for [0 <= i < length s], [slice s i v] is
    [p] with [v] inserted immediately before position [i], the elements
    of [p] in their order; at any other index the code returns [p]. *)
Lemma slice_inserts_before_element (A : Type) `{Definable A}
    (s : list A) (i : Z) (v : A) :
  Direct.slice s i v =
    (if ((0 <=? i) && (i <? Z.of_nat (Direct.length s)))%Z
     then firstn (Z.to_nat i) (defined_prefix s) ++
          v :: skipn (Z.to_nat i) (defined_prefix s)
     else defined_prefix s) /\
  (all_defined s ->
   Direct.slice s i v =
     if ((0 <=? i) && (i <? Z.of_nat (List.length s)))%Z
     then firstn (Z.to_nat i) s ++ v :: skipn (Z.to_nat i) s
     else s).
Proof.
  assert (E : Direct.slice s i v =
    if ((0 <=? i) && (i <? Z.of_nat (Direct.length s)))%Z
    then firstn (Z.to_nat i) (defined_prefix s) ++
         v :: skipn (Z.to_nat i) (defined_prefix s)
    else defined_prefix s).
  { unfold Direct.slice.
    destruct (Z.leb_spec 0 i) as [H0|H0];
      destruct (Z.ltb_spec i (Z.of_nat (Direct.length s))) as [H1|H1]; simpl;
      try (apply slice_from_outside; lia).
    rewrite slice_from_inside by lia. now rewrite Z.sub_0_r. }
  split; [exact E|].
  intros Hs. rewrite E, length_prefix, (defined_prefix_all Hs). reflexivity.
Qed.

(** C6. At an index that is the length of the sequence, [slice] does not
    append the value, and on the empty sequence it inserts nothing at
    index 0: the position is only compared inside the [def(x)] branch,
    and the base case returns the empty array.  The claim, and the
    source comment "Returns a new array with value inserted at given
    index", have [[1, 2, 9]] and [[9]]. *)
Theorem slice_does_not_append :
  Direct.slice (numeric [Fin 1; Fin 2]) 2 (VNum (Fin 9)) =
    numeric [Fin 1; Fin 2] /\
  Direct.slice (numeric [Fin 1; Fin 2]) 2 (VNum (Fin 9)) <>
    numeric [Fin 1; Fin 2] ++ [VNum (Fin 9)] /\
  Direct.slice (numeric [Fin 1; Fin 2]) 7 (VNum (Fin 9)) <>
    numeric [Fin 1; Fin 2] ++ [VNum (Fin 9)] /\
  Direct.slice [] 0 (VNum (Fin 9)) = [].
Proof. repeat split; discriminate. Qed.

(** ** C7: swap *)

(** [map] hands the callback one argument, its second parameter is
    undefined and equals no index: every element is returned as it is. *)
Lemma swap_is_copy (a : list value) (i j : Z) :
  Direct.swap a i j = defined_prefix a.
Proof.
  unfold Direct.swap. rewrite map_prefix.
  unfold Direct.swap_fn; simpl. apply map_id.
Qed.

(** C7. [swap] does not exchange the elements at two positions in
    range: on the source's own example, [swap(array, 0, 4) // [5,2,3,4,1]],
    the claim gives [[5, 2, 3, 4, 1]] and the code returns the array
    unchanged. *)
Theorem swap_in_range_example :
  swap_spec (numeric [Fin 1; Fin 2; Fin 3; Fin 4; Fin 5]) 0 4 =
    inr (numeric [Fin 5; Fin 2; Fin 3; Fin 4; Fin 1]) /\
  Direct.swap (numeric [Fin 1; Fin 2; Fin 3; Fin 4; Fin 5]) 0 4 =
    numeric [Fin 1; Fin 2; Fin 3; Fin 4; Fin 5] /\
  Direct.swap (numeric [Fin 1; Fin 2; Fin 3; Fin 4; Fin 5]) 0 4 <>
    numeric [Fin 5; Fin 2; Fin 3; Fin 4; Fin 1].
Proof. repeat split; discriminate. Qed.

(** With an index out of range the code returns the array, where the
    reading of the specification has an IndexOutOfRangeError: nothing in
    [swap] or [map] raises. *)
Remark swap_raises_no_error :
  swap_spec (numeric [Fin 1; Fin 2; Fin 3]) 0 5 = inl IndexOutOfRangeError /\
  Direct.swap (numeric [Fin 1; Fin 2; Fin 3]) 0 5 =
    numeric [Fin 1; Fin 2; Fin 3] /\
  inr (Direct.swap (numeric [Fin 1; Fin 2; Fin 3]) 0 5) <>
    swap_spec (numeric [Fin 1; Fin 2; Fin 3]) 0 5.
Proof. repeat split; discriminate. Qed.

(** ** C9: quicksort terminates *)

Section FilterLength.
Context {A : Type} `{Definable A}.

Lemma filter_shorter (s : list A) (fn : A -> bool) :
  List.length (Direct.filter s fn) <= List.length s /\
  Direct.length (Direct.filter s fn) <= Direct.length s.
Proof.
  induction s as [|x s [IH1 IH2]]; simpl; [lia|].
  destruct (def x) eqn:Hx; simpl; [|lia].
  destruct (fn x); simpl; [rewrite Hx|]; lia.
Qed.

Lemma reject_shorter (s : list A) (fn : A -> bool) :
  List.length (Direct.reject s fn) <= List.length s.
Proof.
  rewrite reject_prefix.
  etransitivity; [apply filter_length_le|].
  clear fn; induction s as [|x s IH]; simpl; [lia|].
  destruct (def x); simpl; lia.
Qed.

(** A sequence with a truthy [length] has a defined first element. *)
Lemma truthy_length (s : list A) :
  truthy_nat (Direct.length s) = true ->
  exists x s', s = x :: s' /\ def x = true.
Proof.
  destruct s as [|x s']; simpl; [discriminate|].
  destruct (def x) eqn:Hx; [|discriminate].
  intros _; now exists x, s'.
Qed.
End FilterLength.

(** Each recursive call of quicksort is on a filter of the tail, which is
    shorter than the input, by the number of elements and by [length]. *)
Lemma quicksort_argument_shorter (xs : list value) (fn : value -> bool) :
  truthy_nat (Direct.length xs) = true ->
  List.length (Direct.filter (tail xs) fn) < List.length xs /\
  Direct.length (Direct.filter (tail xs) fn) < Direct.length xs.
Proof.
  intros Hl. destruct (truthy_length xs Hl) as (x & xs' & -> & Hx).
  destruct (filter_shorter xs' fn) as [H1 H2].
  simpl. rewrite Hx. lia.
Qed.

Section QuicksortTermination.
Variables lte gt lt : value -> value -> bool.

Lemma quicksort_fuel_enough (n : nat) :
  forall xs, List.length xs <= n ->
  exists r, forall fuel, List.length xs < fuel ->
    Direct.quicksort_fuel lte gt fuel xs = Some r.
Proof.
  induction n as [|n IH]; intros xs Hn.
  - destruct xs; [|simpl in Hn; lia].
    exists []. intros [|k] Hk; [lia|reflexivity].
  - destruct (truthy_nat (Direct.length xs)) eqn:Hl.
    + destruct (quicksort_argument_shorter xs
                  (fun x => lte x (head xs)) Hl) as [H1 _].
      destruct (quicksort_argument_shorter xs
                  (fun x => gt x (head xs)) Hl) as [H2 _].
      destruct (IH (Direct.filter (tail xs) (fun x => lte x (head xs))))
        as [r1 E1]; [lia|].
      destruct (IH (Direct.filter (tail xs) (fun x => gt x (head xs))))
        as [r2 E2]; [lia|].
      exists (Direct.flatten [VArr r1; head xs; VArr r2]).
      intros [|k] Hk; [lia|]. simpl Direct.quicksort_fuel.
      rewrite Hl, E1, E2 by lia. reflexivity.
    + exists []. intros [|k] Hk; [lia|].
      simpl Direct.quicksort_fuel. now rewrite Hl.
Qed.

Lemma quicksort_partition_fuel_enough (n : nat) :
  forall xs, List.length xs <= n ->
  exists r, forall fuel, List.length xs < fuel ->
    Direct.quicksort_partition_fuel lt fuel xs = Some r.
Proof.
  induction n as [|n IH]; intros xs Hn.
  - destruct xs; [|simpl in Hn; lia].
    exists []. intros [|k] Hk; [lia|reflexivity].
  - destruct (truthy_nat (Direct.length xs)) eqn:Hl.
    + destruct (quicksort_argument_shorter xs
                  (fun x => lt x (head xs)) Hl) as [H1 _].
      destruct (truthy_length xs Hl) as (x & xs' & -> & Hx).
      pose proof (reject_shorter xs' (fun y => lt y x)) as H2.
      simpl in H1, Hn.
      destruct (IH (Direct.filter xs' (fun y => lt y x)))
        as [r1 E1]; [lia|].
      destruct (IH (Direct.reject xs' (fun y => lt y x)))
        as [r2 E2]; [lia|].
      exists (Direct.flatten [VArr r1; x; VArr r2]).
      intros [|k] Hk; [lia|]. simpl in Hk.
      simpl Direct.quicksort_partition_fuel.
      rewrite Hx. unfold Direct.partition. simpl head; simpl tail.
      change (truthy_nat (S (Direct.length xs'))) with true. simpl negb.
      cbv iota. rewrite E1, E2 by lia. reflexivity.
    + exists []. intros [|k] Hk; [lia|].
      simpl Direct.quicksort_partition_fuel. now rewrite Hl.
Qed.
End QuicksortTermination.

(** C9. quicksort terminates on every finite sequence, whatever the
    comparisons answer: each recursive call is on a filter of the tail of
    the input, which is strictly shorter than the input, and a call depth
    of more than the number of elements always yields the result. *)
Theorem quicksort_terminates (lte gt : value -> value -> bool)
    (xs : list value) :
  (forall fn : value -> bool,
     truthy_nat (Direct.length xs) = true ->
     List.length (Direct.filter (tail xs) fn) < List.length xs /\
     Direct.length (Direct.filter (tail xs) fn) < Direct.length xs) /\
  (exists r, forall fuel, List.length xs < fuel ->
     Direct.quicksort_fuel lte gt fuel xs = Some r).
Proof.
  split.
  - intros fn; apply quicksort_argument_shorter.
  - apply (quicksort_fuel_enough lte gt (n := List.length xs)). lia.
Qed.

Lemma quicksort_terminates_witness :
  List.length
    (Direct.filter (tail (numeric [Fin 8; Fin 2; Fin 6]))
                   (fun x => js_le x (head (numeric [Fin 8; Fin 2; Fin 6]))))
    < List.length (numeric [Fin 8; Fin 2; Fin 6]) /\
  exists r, Direct.quicksort_fuel js_le js_gt 4 (numeric [Fin 8; Fin 2; Fin 6])
            = Some r.
Proof.
  destruct (quicksort_terminates js_le js_gt (numeric [Fin 8; Fin 2; Fin 6]))
    as [Hdec [r Hr]].
  split.
  - apply Hdec. reflexivity.
  - exists r. apply Hr. simpl; lia.
Defined.

(** ** C1: quicksort sorts *)

Lemma numeric_defined (s : list number) : all_defined (numeric s).
Proof. induction s; constructor; [reflexivity|assumption]. Qed.

Lemma numeric_app (s t : list number) :
  numeric (s ++ t) = numeric s ++ numeric t.
Proof. apply map_app. Qed.

Lemma filter_numeric (s : list number) (fn : value -> bool) :
  Direct.filter (numeric s) fn =
  numeric (List.filter (fun y => fn (VNum y)) s).
Proof.
  induction s as [|y s IH]; simpl; [reflexivity|].
  destruct (fn (VNum y)); simpl; now rewrite IH.
Qed.

Lemma reject_numeric (s : list number) (fn : value -> bool) :
  Direct.reject (numeric s) fn =
  numeric (List.filter (fun y => negb (fn (VNum y))) s).
Proof.
  induction s as [|y s IH]; simpl; [reflexivity|].
  destruct (fn (VNum y)); simpl; now rewrite IH.
Qed.

(** [flatten] of the two sorted parts around the pivot. *)
Lemma flatten_around_pivot (r1 r2 : list number) (p : number) :
  Direct.flatten [VArr (numeric r1); VNum p; VArr (numeric r2)] =
  numeric (r1 ++ p :: r2).
Proof.
  rewrite flatten_cons; simpl def; simpl isArray; cbv iota.
  rewrite flatten_value_arr, flatten_numeric.
  rewrite flatten_cons; simpl def; simpl isArray; cbv iota.
  rewrite flatten_cons; simpl def; simpl isArray; cbv iota.
  rewrite flatten_value_arr, flatten_numeric, flatten_nil, app_nil_r.
  now rewrite numeric_app.
Qed.

Lemma filter_split_permutation {A : Type} (f : A -> bool) (t : list A) :
  Permutation t (List.filter f t ++ List.filter (fun y => negb (f y)) t).
Proof.
  induction t as [|y t IH]; simpl; [constructor|].
  destruct (f y); simpl.
  - now constructor.
  - now apply Permutation_cons_app.
Qed.

(** One step of quicksort around the pivot [p], for any test [f] that
    sends the elements not above [p] one way and those not below [p] the
    other way. *)
Lemma sorted_around_pivot (f : number -> bool) (p : number)
    (t r1 r2 : list number) :
  (forall y, f y = true -> num_le y p) ->
  (forall y, f y = false -> num_le p y) ->
  Permutation (List.filter f t) r1 ->
  Permutation (List.filter (fun y => negb (f y)) t) r2 ->
  StronglySorted num_le r1 ->
  StronglySorted num_le r2 ->
  Permutation (p :: t) (r1 ++ p :: r2) /\
  StronglySorted num_le (r1 ++ p :: r2).
Proof.
  intros Hlow Hhigh P1 P2 S1 S2.
  assert (B1 : Forall (fun y => num_le y p) r1).
  { eapply Permutation_Forall; [exact P1|].
    apply Forall_forall; intros y Hy. apply filter_In in Hy. now apply Hlow. }
  assert (B2 : Forall (fun y => num_le p y) r2).
  { eapply Permutation_Forall; [exact P2|].
    apply Forall_forall; intros y Hy. apply filter_In in Hy.
    apply Hhigh. destruct Hy as [_ Hy]. now destruct (f y). }
  split.
  - apply Permutation_cons_app.
    rewrite (filter_split_permutation f t) at 1.
    now apply Permutation_app.
  - clear P1 P2. induction S1 as [|a r1 S1 IH Ha]; simpl.
    + constructor; assumption.
    + inversion B1 as [|? ? Hap B1']; subst.
      constructor; [now apply IH|].
      apply Forall_app; split; [assumption|].
      constructor; [assumption|].
      eapply Forall_impl; [|exact B2].
      intros y Hy. unfold num_le in *. eapply num_leb_trans; eassumption.
Qed.

Lemma quicksort_numeric (n : nat) :
  forall s : list number, List.length s <= n ->
  exists r,
    (forall fuel, List.length s < fuel ->
       Direct.quicksort_fuel js_le js_gt fuel (numeric s) = Some (numeric r)) /\
    Permutation s r /\
    StronglySorted num_le r.
Proof.
  induction n as [|n IH]; intros s Hn.
  - destruct s; [|simpl in Hn; lia].
    exists []. repeat split; try constructor.
    intros [|k] Hk; [lia|reflexivity].
  - destruct s as [|p t].
    { exists []. repeat split; try constructor.
      intros [|k] Hk; [simpl in Hk; lia|reflexivity]. }
    simpl in Hn.
    set (f := fun y => num_leb y p).
    destruct (IH (List.filter f t)) as (r1 & E1 & P1 & S1).
    { pose proof (filter_length_le f t). lia. }
    destruct (IH (List.filter (fun y => negb (f y)) t)) as (r2 & E2 & P2 & S2).
    { pose proof (filter_length_le (fun y => negb (f y)) t). lia. }
    exists (r1 ++ p :: r2).
    assert (Hlow : forall y, f y = true -> num_le y p)
      by (intros y Hy; exact Hy).
    assert (Hhigh : forall y, f y = false -> num_le p y)
      by (intros y Hy; unfold num_le; now apply num_leb_total).
    destruct (@sorted_around_pivot f p t r1 r2 Hlow Hhigh P1 P2 S1 S2)
      as [HP HS].
    repeat split; trivial.
    intros [|k] Hk; [lia|]. simpl in Hk.
    simpl Direct.quicksort_fuel.
    change (truthy_nat (S (Direct.length (numeric t)))) with true. cbv iota.
    rewrite !filter_numeric.
    assert (G : List.filter (fun y => num_ltb p y) t =
                List.filter (fun y => negb (f y)) t).
    { apply filter_ext. intros y. unfold f. apply num_ltb_leb. }
    rewrite G.
    change (List.filter (fun y => js_le (VNum y) (VNum p)) t)
      with (List.filter f t).
    rewrite E1, E2.
    + now rewrite flatten_around_pivot.
    + pose proof (filter_length_le (fun y => negb (f y)) t). lia.
    + pose proof (filter_length_le f t). lia.
Qed.

Lemma quicksort_partition_numeric (n : nat) :
  forall s : list number, List.length s <= n ->
  exists r,
    (forall fuel, List.length s < fuel ->
       Direct.quicksort_partition_fuel js_lt fuel (numeric s)
       = Some (numeric r)) /\
    Permutation s r /\
    StronglySorted num_le r.
Proof.
  induction n as [|n IH]; intros s Hn.
  - destruct s; [|simpl in Hn; lia].
    exists []. repeat split; try constructor.
    intros [|k] Hk; [lia|reflexivity].
  - destruct s as [|p t].
    { exists []. repeat split; try constructor.
      intros [|k] Hk; [simpl in Hk; lia|reflexivity]. }
    simpl in Hn.
    set (f := fun y => num_ltb y p).
    destruct (IH (List.filter f t)) as (r1 & E1 & P1 & S1).
    { pose proof (filter_length_le f t). lia. }
    destruct (IH (List.filter (fun y => negb (f y)) t)) as (r2 & E2 & P2 & S2).
    { pose proof (filter_length_le (fun y => negb (f y)) t). lia. }
    exists (r1 ++ p :: r2).
    assert (Hlow : forall y, f y = true -> num_le y p).
    { intros y Hy. unfold f in Hy. rewrite num_ltb_leb in Hy.
      unfold num_le. apply num_leb_total.
      now destruct (num_leb p y). }
    assert (Hhigh : forall y, f y = false -> num_le p y).
    { intros y Hy. unfold f in Hy. rewrite num_ltb_leb in Hy.
      unfold num_le. now destruct (num_leb p y). }
    destruct (@sorted_around_pivot f p t r1 r2 Hlow Hhigh P1 P2 S1 S2)
      as [HP HS].
    repeat split; trivial.
    intros [|k] Hk; [lia|]. simpl in Hk.
    simpl Direct.quicksort_partition_fuel.
    change (truthy_nat (S (Direct.length (numeric t)))) with true.
    simpl negb; cbv iota.
    unfold Direct.partition. rewrite filter_numeric, reject_numeric.
    change (List.filter (fun y => js_lt (VNum y) (VNum p)) t)
      with (List.filter f t).
    change (List.filter (fun y => negb (js_lt (VNum y) (VNum p))) t)
      with (List.filter (fun y => negb (f y)) t).
    rewrite E1, E2.
    + now rewrite flatten_around_pivot.
    + pose proof (filter_length_le (fun y => negb (f y)) t). lia.
    + pose proof (filter_length_le f t). lia.
Qed.

(** C1. For every finite numeric sequence [s], quicksort returns a
    sequence that is non-decreasing and a permutation of [s], with the
    filter-based and with the partition-based definition; any call depth
    above the number of elements gives that result. *)
Theorem quicksort_sorts (s : list number) :
  (exists r,
     Direct.quicksort (numeric s) = Some (numeric r) /\
     (forall k, Direct.quicksort_fuel js_le js_gt (S (List.length s) + k)
                  (numeric s) = Some (numeric r)) /\
     Sorted num_le r /\ Permutation s r) /\
  (exists r,
     Direct.quicksort_partition (numeric s) = Some (numeric r) /\
     (forall k, Direct.quicksort_partition_fuel js_lt (S (List.length s) + k)
                  (numeric s) = Some (numeric r)) /\
     Sorted num_le r /\ Permutation s r).
Proof.
  split.
  - destruct (quicksort_numeric (n := List.length s) s) as (r & E & P & S);
      [lia|].
    exists r; repeat split; trivial.
    + unfold Direct.quicksort, numeric. rewrite length_map. apply E; lia.
    + intros k; apply E; lia.
    + now apply StronglySorted_Sorted.
  - destruct (quicksort_partition_numeric (n := List.length s) s)
      as (r & E & P & S); [lia|].
    exists r; repeat split; trivial.
    + unfold Direct.quicksort_partition, numeric. rewrite length_map.
      apply E; lia.
    + intros k; apply E; lia.
    + now apply StronglySorted_Sorted.
Qed.

(** The source's example: [quicksort([8, 2, 6, 4, 1])] is [[1, 2, 4, 6, 8]]. *)
Example quicksort_example :
  Direct.quicksort (numeric [Fin 8; Fin 2; Fin 6; Fin 4; Fin 1]) =
    Some (numeric [Fin 1; Fin 2; Fin 4; Fin 6; Fin 8]) /\
  Direct.quicksort_partition (numeric [Fin 8; Fin 2; Fin 6; Fin 4; Fin 1]) =
    Some (numeric [Fin 1; Fin 2; Fin 4; Fin 6; Fin 8]).
Proof. split; reflexivity. Qed.

(** ** Remarks on the edges of C1 *)

(** [NaN] is not part of a numeric sequence above.  No comparison orders
    it: the filter-based quicksort keeps it on neither side of the pivot,
    the partition-based one keeps it on the side of [reject]. *)
Remark quicksort_NaN :
  Direct.quicksort [VNum (Fin 1); VNaN] = Some [VNum (Fin 1)] /\
  Direct.quicksort_partition [VNum (Fin 1); VNaN] =
    Some [VNum (Fin 1); VNaN].
Proof. split; reflexivity. Qed.

(** The reduce-based [flatten] of line 431 is the call of [reduce] of the
    source. *)
Lemma flatten_reduce (xs : list value) :
  Reduction.flatten xs =
  reduce xs
    (fun memo x _ =>
       if truthy x
       then (if isArray x then memo ++ Reduction.flatten_value x
             else memo ++ [x])
       else [])
    [] 0%Z.
Proof.
  unfold Reduction.flatten; simpl.
  generalize (@nil value) at 3 6. generalize 0%Z.
  induction xs as [|x xs IH]; intros i memo; simpl; [reflexivity|].
  destruct (def x); [apply IH|reflexivity].
Qed.

(** quicksort above is the one of line 380 with the [flatten] of line 143,
    which precedes it.  The later reduce-based [flatten] is not the same
    function: it empties its accumulator at a falsy element such as 0. *)
Remark flatten_variants_differ :
  Direct.flatten (numeric [Fin 1; Fin 0; Fin 2]) =
    numeric [Fin 1; Fin 0; Fin 2] /\
  Reduction.flatten (numeric [Fin 1; Fin 0; Fin 2]) = numeric [Fin 2].
Proof. split; reflexivity. Qed.


(** * Further properties of the utilities *)

(** ** Results and their lengths *)

(** [map] (line 174) returns one result per element that [length]
    counts.  An undefined result ends the count of [length] on the
    mapped array; when [fn] returns no undefined result, [map] preserves
    [length]. *)
Theorem map_length_preserved (A B : Type) `{Definable A} `{Definable B}
    (s : list A) (fn : A -> B) :
  List.length (Direct.map s fn) = Direct.length s /\
  Direct.length (Direct.map s fn) <= Direct.length s /\
  ((forall x, def x = true -> def (fn x) = true) ->
   Direct.length (Direct.map s fn) = Direct.length s).
Proof.
  repeat split.
  - rewrite map_prefix, length_prefix. apply length_map.
  - induction s as [|x s IH]; simpl; [lia|].
    destruct (def x); simpl; [|lia]. destruct (def (fn x)); lia.
  - intros Hfn. induction s as [|x s IH]; simpl; [reflexivity|].
    destruct (def x) eqn:Hx; simpl; [|reflexivity].
    now rewrite (Hfn x Hx), IH.
Qed.

Lemma map_length_preserved_witness :
  Direct.length (Direct.map (numeric [Fin 1; Fin 2]) (fun x => VArr [x])) =
  Direct.length (numeric [Fin 1; Fin 2]).
Proof.
  apply (map_length_preserved (numeric [Fin 1; Fin 2]) (fun x => VArr [x])).
  intros x _. reflexivity.
Defined.

(** [partition] (line 220) splits the elements before the first
    undefined one: every such element is in exactly one of the two
    results, those of the first pass [fn], those of the second fail it,
    and both keep the order of the input. *)
Theorem partition_complete (A : Type) `{Definable A}
    (s : list A) (fn : A -> bool) :
  let '(pass, fail) := Direct.partition s fn in
  Direct.length pass + Direct.length fail = Direct.length s /\
  Permutation (pass ++ fail) (defined_prefix s) /\
  Forall (fun x => fn x = true) pass /\
  Forall (fun x => fn x = false) fail /\
  pass = List.filter fn (defined_prefix s) /\
  fail = List.filter (fun x => negb (fn x)) (defined_prefix s).
Proof.
  unfold Direct.partition.
  rewrite filter_prefix, reject_prefix.
  set (p := defined_prefix s).
  assert (Dp : all_defined p) by apply defined_prefix_defined.
  assert (D1 : all_defined (List.filter fn p)).
  { apply Forall_forall; intros x Hx. apply filter_In in Hx.
    unfold all_defined in Dp. rewrite Forall_forall in Dp. now apply Dp. }
  assert (D2 : all_defined (List.filter (fun x => negb (fn x)) p)).
  { apply Forall_forall; intros x Hx. apply filter_In in Hx.
    unfold all_defined in Dp. rewrite Forall_forall in Dp. now apply Dp. }
  repeat split.
  - rewrite !length_prefix, (defined_prefix_all D1), (defined_prefix_all D2).
    fold p. rewrite <- length_app.
    apply Permutation_length. symmetry. apply filter_split_permutation.
  - symmetry. apply filter_split_permutation.
  - apply Forall_forall; intros x Hx. now apply filter_In in Hx.
  - apply Forall_forall; intros x Hx. apply filter_In in Hx.
    destruct Hx as [_ Hx]. now destruct (fn x).
Qed.

(** The arrays returned by [reverse], [first], [last], [filter] and
    [reject] (lines 89 to 203) contain no undefined element, so every
    def-guarded function sees them whole. *)
Theorem results_have_no_undefined (A : Type) `{Definable A}
    (s : list A) (n : Z) (fn : A -> bool) :
  all_defined (Direct.reverse s) /\
  all_defined (Direct.first s n) /\
  all_defined (Direct.last s n) /\
  all_defined (Direct.filter s fn) /\
  all_defined (Direct.reject s fn).
Proof.
  assert (F : forall (t : list A) (k : Z), all_defined (Direct.first t k)).
  { intros t; induction t as [|x t IH]; intros k; simpl; [constructor|].
    destruct (def x) eqn:Hx; simpl; [|constructor].
    destruct (k =? 0)%Z; simpl; constructor; [assumption|apply IH]. }
  assert (R : forall t : list A, all_defined (Direct.reverse t)).
  { intros t. rewrite reverse_prefix. apply Forall_rev.
    apply defined_prefix_defined. }
  assert (K : forall (t : list A) (g : A -> bool),
             all_defined (List.filter g (defined_prefix t))).
  { intros t g. apply Forall_forall; intros x Hx. apply filter_In in Hx.
    pose proof (defined_prefix_defined t) as D.
    unfold all_defined in D. rewrite Forall_forall in D. now apply D. }
  repeat split.
  - apply R.
  - apply F.
  - unfold Direct.last. apply R.
  - rewrite filter_prefix. apply K.
  - rewrite reject_prefix. apply K.
Qed.

(** ** How the functions compose *)

(** Filtering twice (line 191) is filtering by both predicates.  Mapping
    twice (line 174) is mapping the composed function as long as the
    first function returns no undefined result; an undefined result ends
    the second [map]. *)
Theorem filter_map_fusion (A B C : Type) `{Definable A} `{Definable B}
    (s : list A) (p q : A -> bool) (f : A -> B) (g : B -> C) :
  Direct.filter (Direct.filter s p) q =
    Direct.filter s (fun x => p x && q x) /\
  ((forall x, def x = true -> def (f x) = true) ->
   Direct.map (Direct.map s f) g = Direct.map s (fun x => g (f x))).
Proof.
  split.
  - induction s as [|x s IH]; simpl; [reflexivity|].
    destruct (def x) eqn:Hx; simpl; [|reflexivity].
    destruct (p x); simpl; [rewrite Hx|]; now rewrite IH.
  - intros Hf. induction s as [|x s IH]; simpl; [reflexivity|].
    destruct (def x) eqn:Hx; simpl; [|reflexivity].
    now rewrite (Hf x Hx), IH.
Qed.

Lemma filter_map_fusion_witness :
  Direct.map (Direct.map (numeric [Fin 1; Fin 2]) (fun x => VArr [x]))
             (fun y => VArr [y]) =
  Direct.map (numeric [Fin 1; Fin 2]) (fun x => VArr [VArr [x]]).
Proof.
  apply (filter_map_fusion (numeric [Fin 1; Fin 2])
           (fun _ => true) (fun _ => true)
           (fun x => VArr [x]) (fun y => VArr [y])).
  intros x _. reflexivity.
Defined.

(** An undefined result of the first function cuts the second [map]
    short: the two sides of the fusion law differ. *)
Remark map_fusion_needs_defined_results :
  Direct.map (Direct.map (numeric [Fin 1; Fin 2]) (fun _ => VUndef))
             (fun _ => VNaN) = [] /\
  Direct.map (numeric [Fin 1; Fin 2]) (fun _ => VNaN) = [VNaN; VNaN].
Proof. split; reflexivity. Qed.

(** [reduce] (line 237) over a concatenation, when the first part has no
    undefined element: the second part is folded from the result of the
    first, and its elements get the positions that follow. *)
Theorem reduce_app (A M : Type) `{Definable A}
    (s t : list A) (fn : M -> A -> Z -> M) (memo : M) (i : Z) :
  all_defined s ->
  reduce (s ++ t) fn memo i =
  reduce t fn (reduce s fn memo i) (i + Z.of_nat (List.length s))%Z.
Proof.
  intros Hs; revert memo i.
  induction Hs as [|x s Hx _ IH]; intros memo i; simpl.
  - now rewrite Z.add_0_r.
  - rewrite Hx, IH. f_equal. lia.
Qed.

Lemma reduce_app_witness :
  all_defined (numeric [Fin 1; Fin 2]) /\
  reduce (numeric [Fin 1; Fin 2] ++ numeric [Fin 3])
         (fun m x i => m ++ [(x, i)]) [] 0%Z =
  [(VNum (Fin 1), 0%Z); (VNum (Fin 2), 1%Z); (VNum (Fin 3), 2%Z)].
Proof.
  assert (Hs : all_defined (numeric [Fin 1; Fin 2])) by (repeat constructor).
  split; [exact Hs|].
  rewrite (reduce_app (numeric [Fin 3]) (fun m x i => m ++ [(x, i)]) [] 0 Hs).
  reflexivity.
Defined.

(** [reverse] (line 89) of a concatenation whose first part has no
    undefined element. *)
Theorem reverse_app (A : Type) `{Definable A} (s t : list A) :
  all_defined s ->
  Direct.reverse (s ++ t) = Direct.reverse t ++ Direct.reverse s.
Proof.
  intros Hs; induction Hs as [|x s Hx _ IH]; simpl.
  - now rewrite app_nil_r.
  - now rewrite Hx, IH, app_assoc.
Qed.

Lemma reverse_app_witness :
  all_defined (numeric [Fin 1; Fin 2]) /\
  Direct.reverse (numeric [Fin 1; Fin 2] ++ [VNum (Fin 3); VUndef]) =
  Direct.reverse [VNum (Fin 3); VUndef] ++ Direct.reverse (numeric [Fin 1; Fin 2]).
Proof.
  assert (Hs : all_defined (numeric [Fin 1; Fin 2])) by (repeat constructor).
  split; [exact Hs|].
  exact (reverse_app [VNum (Fin 3); VUndef] Hs).
Defined.

(** ** first and last *)

(** With a count that is not negative, the direct [first] (line 107) and
    the reduce-based [first] (line 419) return the same array: the
    leading [min n (length s)] elements. *)
Theorem first_agree_nonnegative (A : Type) `{Definable A}
    (s : list A) (n : Z) :
  (0 <= n)%Z ->
  Direct.first s n = firstn (Nat.min (Z.to_nat n) (Direct.length s)) s /\
  Direct.first s n = Reduction.first s (Some n).
Proof.
  intros Hn. destruct (reduction_first_spec s n) as [E _].
  rewrite E. split; [|]; now apply first_nonnegative.
Qed.

Lemma first_agree_nonnegative_witness :
  Direct.first (numeric [Fin 1; Fin 2; Fin 3; Fin 4]) 3 =
    numeric [Fin 1; Fin 2; Fin 3] /\
  Direct.first (numeric [Fin 1; Fin 2; Fin 3; Fin 4]) 3 =
    Reduction.first (numeric [Fin 1; Fin 2; Fin 3; Fin 4]) (Some 3%Z).
Proof.
  assert (Hn : (0 <= 3)%Z) by lia.
  exact (@first_agree_nonnegative value _
           (numeric [Fin 1; Fin 2; Fin 3; Fin 4]) 3%Z Hn).
Defined.

Section LastFacts.
Context {A : Type} `{Definable A}.

Lemma first_defined_nonnegative (p : list A) (n : Z) :
  all_defined p -> (0 <= n)%Z -> Direct.first p n = firstn (Z.to_nat n) p.
Proof.
  intros Hp Hn. rewrite first_nonnegative by assumption.
  rewrite firstn_prefix_min. now rewrite defined_prefix_all.
Qed.

Lemma reverse_defined (p : list A) :
  all_defined p -> Direct.reverse p = rev p.
Proof. intros Hp. now rewrite reverse_prefix, defined_prefix_all. Qed.

Lemma firstn_defined (p : list A) (k : nat) :
  all_defined p -> all_defined (firstn k p).
Proof.
  intros Hp; revert k; induction Hp as [|x p Hx _ IH]; intros [|k]; simpl;
    constructor; trivial. apply IH.
Qed.

Lemma last_nonnegative (s : list A) (n : Z) :
  (0 <= n)%Z ->
  Direct.last s n =
  skipn (Direct.length s - Z.to_nat n) (defined_prefix s).
Proof.
  intros Hn. unfold Direct.last.
  set (p := defined_prefix s).
  assert (Dp : all_defined p) by apply defined_prefix_defined.
  assert (Dr : all_defined (rev p)) by now apply Forall_rev.
  rewrite (reverse_prefix s). fold p.
  rewrite (first_defined_nonnegative Dr Hn).
  rewrite (reverse_defined (firstn_defined (Z.to_nat n) Dr)).
  rewrite firstn_rev, rev_involutive.
  now rewrite length_prefix.
Qed.

Lemma last_negative (s : list A) (n : Z) :
  (n < 0)%Z -> Direct.last s n = defined_prefix s.
Proof.
  intros Hn. unfold Direct.last.
  rewrite first_negative by assumption.
  assert (Dr : all_defined (rev (defined_prefix s)))
    by apply Forall_rev, defined_prefix_defined.
  rewrite (reverse_prefix s), (defined_prefix_all Dr).
  rewrite (reverse_defined Dr). apply rev_involutive.
Qed.

Lemma reduce_from_index (s : list A) (t : Z) (memo : list A) (i : Z) :
  reduce s (fun m x k => if (t <=? k)%Z then m ++ [x] else m) memo i =
  memo ++ skipn (Z.to_nat (t - i)) (defined_prefix s).
Proof.
  revert memo i; induction s as [|x s IH]; intros memo i; simpl.
  - now rewrite skipn_nil, app_nil_r.
  - destruct (def x); simpl; [|now rewrite skipn_nil, app_nil_r].
    rewrite IH. destruct (Z.leb_spec t i) as [Hle|Hgt].
    + replace (Z.to_nat (t - (i + 1))) with 0 by lia.
      replace (Z.to_nat (t - i)) with 0 by lia.
      simpl. now rewrite <- app_assoc.
    + replace (Z.to_nat (t - i)) with (S (Z.to_nat (t - (i + 1)))) by lia.
      reflexivity.
Qed.

Lemma reduction_last_spec (s : list A) (n : Z) :
  Reduction.last s (Some n) =
  skipn (Z.to_nat (Z.of_nat (Direct.length s) - n)) (defined_prefix s).
Proof.
  unfold Reduction.last. rewrite reduce_from_index. simpl.
  unfold Reduction.length. rewrite reduce_count_acc, length_prefix.
  now rewrite Z.sub_0_r.
Qed.
End LastFacts.

(** The direct [last] (line 116): with a count [n] that is not negative
    it returns the trailing [min n (length s)] elements, those after the
    first [length s - n]; with a negative count it returns the whole
    sequence, as [first] does. *)
Theorem last_direct (A : Type) `{Definable A} (s : list A) (n : Z) :
  Direct.last s n =
  if (0 <=? n)%Z
  then skipn (Direct.length s - Z.to_nat n) (defined_prefix s)
  else defined_prefix s.
Proof.
  destruct (Z.leb_spec 0 n).
  - now apply last_nonnegative.
  - now apply last_negative.
Qed.

(** The reduce-based [last] (line 422) keeps the elements from position
    [length s - n] on, and agrees with the direct one for every count
    that is not negative; for a negative count it returns the empty
    array, where the direct one returns the whole sequence. *)
Theorem last_agree_nonnegative (A : Type) `{Definable A}
    (s : list A) (n : Z) :
  Reduction.last s (Some n) =
    skipn (Z.to_nat (Z.of_nat (Direct.length s) - n)) (defined_prefix s) /\
  ((0 <= n)%Z -> Direct.last s n = Reduction.last s (Some n)) /\
  ((n < 0)%Z -> Reduction.last s (Some n) = []).
Proof.
  split; [apply reduction_last_spec|].
  split; intros Hn; rewrite reduction_last_spec.
  - rewrite last_nonnegative by assumption. f_equal. lia.
  - apply skipn_all2. rewrite <- length_prefix. lia.
Qed.

Lemma last_agree_nonnegative_witness :
  Direct.last (numeric [Fin 1; Fin 2; Fin 3; Fin 4]) 2 =
    Reduction.last (numeric [Fin 1; Fin 2; Fin 3; Fin 4]) (Some 2%Z) /\
  Reduction.last (numeric [Fin 1; Fin 2]) (Some (-1)%Z) = [].
Proof.
  assert (H2 : (0 <= 2)%Z) by lia.
  assert (H1 : (-1 < 0)%Z) by lia.
  split.
  - exact (proj1 (proj2 (last_agree_nonnegative
                           (numeric [Fin 1; Fin 2; Fin 3; Fin 4]) 2)) H2).
  - exact (proj2 (proj2 (last_agree_nonnegative
                           (numeric [Fin 1; Fin 2]) (-1))) H1).
Defined.

(** [first] and [last] (lines 107, 116) cut a sequence in two: the first
    [n] elements followed by the last [length s - n] are the elements
    that [length] counts. *)
Theorem first_last_split (A : Type) `{Definable A} (s : list A) (n : Z) :
  (0 <= n <= Z.of_nat (Direct.length s))%Z ->
  Direct.first s n ++ Direct.last s (Z.of_nat (Direct.length s) - n) =
  defined_prefix s.
Proof.
  intros Hn.
  rewrite first_nonnegative, firstn_prefix_min by lia.
  rewrite last_nonnegative by lia.
  replace (Direct.length s - Z.to_nat (Z.of_nat (Direct.length s) - n))
    with (Z.to_nat n) by lia.
  apply firstn_skipn.
Qed.

Lemma first_last_split_witness :
  Direct.first (numeric [Fin 1; Fin 2; Fin 3]) 1 ++
  Direct.last (numeric [Fin 1; Fin 2; Fin 3])
    (Z.of_nat (Direct.length (numeric [Fin 1; Fin 2; Fin 3])) - 1) =
  defined_prefix (numeric [Fin 1; Fin 2; Fin 3]).
Proof.
  assert (Hn : (0 <= 1 <=
                 Z.of_nat (Direct.length (numeric [Fin 1; Fin 2; Fin 3])))%Z)
    by (simpl; lia).
  exact (@first_last_split value _ (numeric [Fin 1; Fin 2; Fin 3]) 1%Z Hn).
Defined.

(** ** reduceRight *)

(** [reduceRight] (line 248) folds the elements before the first
    undefined one from the last to the first.  The positions it hands to
    the callback count from 0 at the last element. *)
Theorem reduceRight_fold (A M : Type) `{Definable A}
    (s : list A) (f : M -> A -> M) (fn : M -> A -> Z -> M) (memo : M) :
  Direct.reduceRight s (fun m x _ => f m x) memo =
    fold_right (fun x m => f m x) memo (defined_prefix s) /\
  Direct.reduceRight s fn memo = reduce (rev (defined_prefix s)) fn memo 0%Z.
Proof.
  unfold Direct.reduceRight. rewrite reverse_prefix. split; [|reflexivity].
  rewrite reduce_fold.
  rewrite (defined_prefix_all (Forall_rev (defined_prefix_defined s))).
  rewrite <- fold_left_rev_right. now rewrite rev_involutive.
Qed.

(** ** flatten *)

(** Induction on values that goes into the elements of arrays. *)
Lemma value_nested_ind (P : value -> Prop) :
  P VUndef -> P VNaN -> (forall n, P (VNum n)) ->
  (forall l, Forall P l -> P (VArr l)) ->
  forall v, P v.
Proof.
  intros HU HN HF HA. fix IH 1. intros [| |n|l].
  - exact HU.
  - exact HN.
  - apply HF.
  - apply HA. induction l as [|x l IHl]; constructor; [apply IH|exact IHl].
Qed.

Lemma flatten_is_flat (l : list value) : is_flat (Direct.flatten l).
Proof.
  change (is_flat (Direct.flatten_value (VArr l))).
  generalize (VArr l). clear l.
  apply (@value_nested_ind (fun v => is_flat (Direct.flatten_value v)));
    try (intros; constructor).
  intros l Hl. rewrite flatten_value_arr.
  induction Hl as [|x l Hx _ IH]; [constructor|].
  rewrite flatten_cons.
  destruct (def x) eqn:Dx; [|constructor].
  destruct (isArray x) eqn:Ax.
  - apply Forall_app; split; assumption.
  - constructor; [split|]; assumption.
Qed.

Lemma flatten_of_flat (l : list value) :
  is_flat l -> Direct.flatten l = l.
Proof.
  induction 1 as [|x l [Dx Ax] _ IH]; [reflexivity|].
  now rewrite flatten_cons, Dx, Ax, IH.
Qed.

(** [flatten] (line 143) returns a flat array, with no array and no
    undefined element in it, and leaves a flat array as it is: flattening
    twice is flattening once. *)
Theorem flatten_idempotent (l : list value) :
  is_flat (Direct.flatten l) /\
  Direct.flatten (Direct.flatten l) = Direct.flatten l /\
  (is_flat l -> Direct.flatten l = l).
Proof.
  split; [apply flatten_is_flat|split].
  - apply flatten_of_flat, flatten_is_flat.
  - apply flatten_of_flat.
Qed.

Lemma flatten_idempotent_witness :
  is_flat (numeric [Fin 1; Fin 0]) /\
  Direct.flatten (numeric [Fin 1; Fin 0]) = numeric [Fin 1; Fin 0].
Proof.
  assert (Hf : is_flat (numeric [Fin 1; Fin 0]))
    by (repeat constructor).
  split; [exact Hf|].
  exact (proj2 (proj2 (flatten_idempotent (numeric [Fin 1; Fin 0]))) Hf).
Defined.

(** [flatten] (line 143) of a concatenation whose first part has no
    undefined element at its top level is the concatenation of the two
    flattened parts; an array element contributes its own flattening. *)
Theorem flatten_app (s t : list value) :
  all_defined s ->
  Direct.flatten (s ++ t) = Direct.flatten s ++ Direct.flatten t /\
  Direct.flatten (VArr s :: t) = Direct.flatten s ++ Direct.flatten t.
Proof.
  intros Hs. split; [|reflexivity].
  induction Hs as [|x s Hx _ IH]; [reflexivity|].
  simpl app. rewrite !flatten_cons, Hx, IH.
  destruct (isArray x); [now rewrite app_assoc|reflexivity].
Qed.

Lemma flatten_app_witness :
  all_defined [VArr [VNum (Fin 1); VArr [VNum (Fin 2)]]] /\
  Direct.flatten ([VArr [VNum (Fin 1); VArr [VNum (Fin 2)]]] ++
                  [VNum (Fin 3)]) =
  Direct.flatten [VArr [VNum (Fin 1); VArr [VNum (Fin 2)]]] ++
  Direct.flatten [VNum (Fin 3)].
Proof.
  assert (Hs : all_defined [VArr [VNum (Fin 1); VArr [VNum (Fin 2)]]])
    by (repeat constructor).
  split; [exact Hs|].
  exact (proj1 (flatten_app [VNum (Fin 3)] Hs)).
Defined.

(** The reduce-based [flatten] as a left fold. *)
Lemma reduction_flatten_fold (xs : list value) :
  Reduction.flatten xs =
  fold_left
    (fun memo x =>
       if truthy x
       then (if isArray x then memo ++ Reduction.flatten_value x
             else memo ++ [x])
       else [])
    (defined_prefix xs) [].
Proof.
  rewrite flatten_reduce.
  apply (reduce_fold xs
           (fun memo x =>
              if truthy x
              then (if isArray x then memo ++ Reduction.flatten_value x
                    else memo ++ [x])
              else [])).
Qed.

Lemma fold_flatten_acc (f : value -> list value) (p memo : list value) :
  (forall x, In x p -> truthy x = true) ->
  fold_left
    (fun m x => if truthy x then (if isArray x then m ++ f x else m ++ [x])
                else [])
    p memo =
  memo ++
  fold_left
    (fun m x => if truthy x then (if isArray x then m ++ f x else m ++ [x])
                else [])
    p [].
Proof.
  revert memo; induction p as [|x p IH]; intros memo Hp; simpl.
  - now rewrite app_nil_r.
  - rewrite (Hp x (or_introl eq_refl)).
    assert (Hp' : forall y, In y p -> truthy y = true)
      by (intros y Hy; apply Hp; now right).
    destruct (isArray x).
    + rewrite (IH (memo ++ f x) Hp'), (IH (f x) Hp').
      now rewrite app_assoc.
    + rewrite (IH (memo ++ [x]) Hp'), (IH [x] Hp').
      now rewrite <- !app_assoc.
Qed.

Lemma no_falsy_truthy (x : value) :
  def x = true -> no_falsy x = true -> truthy x = true.
Proof. destruct x; simpl; trivial; discriminate. Qed.

Lemma flatten_variants_agree_value (v : value) :
  no_falsy v = true ->
  Reduction.flatten_value v = Direct.flatten_value v.
Proof.
  revert v.
  apply (@value_nested_ind
           (fun v => no_falsy v = true ->
                     Reduction.flatten_value v = Direct.flatten_value v));
    try reflexivity.
  intros l Hl Hn. simpl in Hn.
  change (Reduction.flatten l = Direct.flatten l).
  rewrite reduction_flatten_fold.
  induction Hl as [|x l Hx _ IH]; [reflexivity|].
  simpl in Hn. apply andb_prop in Hn. destruct Hn as [Nx Nl].
  rewrite flatten_cons. simpl defined_prefix.
  destruct (def x) eqn:Dx; [|reflexivity].
  simpl fold_left. rewrite (no_falsy_truthy x Dx Nx).
  rewrite fold_flatten_acc.
  - rewrite (IH Nl). destruct (isArray x); [|reflexivity].
    now rewrite (Hx Nx).
  - intros y Hy.
    assert (Dy : def y = true).
    { pose proof (defined_prefix_defined l) as D.
      unfold all_defined in D. rewrite Forall_forall in D. now apply D. }
    apply (no_falsy_truthy y Dy).
    rewrite forallb_forall in Nl. apply Nl.
    clear -Hy. induction l as [|z l IHl]; simpl in *; [contradiction|].
    destruct (def z); [|contradiction].
    destruct Hy as [->|Hy]; [now left|right; now apply IHl].
Qed.

(** The reduce-based [flatten] (line 431) returns what the direct
    [flatten] (line 143) returns on every array in which no defined
    element that is not an array, at any depth, is falsy. *)
Theorem flatten_variants_agree (l : list value) :
  forallb no_falsy l = true ->
  Reduction.flatten l = Direct.flatten l.
Proof. intros Hl. apply (flatten_variants_agree_value (VArr l)). exact Hl. Qed.

Lemma flatten_variants_agree_witness :
  Reduction.flatten [VNum (Fin 1); VArr [VNum (Fin 2); VArr [VNum (Fin 3)]]] =
  Direct.flatten [VNum (Fin 1); VArr [VNum (Fin 2); VArr [VNum (Fin 3)]]].
Proof.
  apply (flatten_variants_agree
           [VNum (Fin 1); VArr [VNum (Fin 2); VArr [VNum (Fin 3)]]]).
  reflexivity.
Defined.

(** At a defined falsy element the reduce-based [flatten] (line 431)
    discards everything it has collected: the result is the flattening
    of what follows that element, where the direct [flatten] keeps the
    elements before it and the element itself. *)
Theorem reduction_flatten_resets (s t : list value) (z : value) :
  all_defined s -> def z = true -> truthy z = false ->
  Reduction.flatten (s ++ z :: t) = Reduction.flatten t /\
  Direct.flatten (s ++ z :: t) = Direct.flatten s ++ z :: Direct.flatten t.
Proof.
  intros Hs Dz Tz. split.
  - rewrite !flatten_reduce.
    rewrite (reduce_app (z :: t) _ [] 0 Hs).
    simpl reduce at 1. rewrite Dz, Tz.
    rewrite !reduce_fold. reflexivity.
  - destruct (flatten_app (z :: t) Hs) as [E _]. rewrite E.
    rewrite (flatten_cons z t), Dz.
    now destruct z.
Qed.

Lemma reduction_flatten_resets_witness :
  Reduction.flatten (numeric [Fin 1; Fin 2] ++ VNum (Fin 0) :: numeric [Fin 3])
    = Reduction.flatten (numeric [Fin 3]) /\
  Direct.flatten (numeric [Fin 1; Fin 2] ++ VNum (Fin 0) :: numeric [Fin 3])
    = Direct.flatten (numeric [Fin 1; Fin 2]) ++
      VNum (Fin 0) :: Direct.flatten (numeric [Fin 3]).
Proof.
  apply (@reduction_flatten_resets (numeric [Fin 1; Fin 2]) (numeric [Fin 3])
           (VNum (Fin 0))).
  - repeat constructor.
  - reflexivity.
  - reflexivity.
Defined.

(** ** merge *)

(** [merge] (line 429) concatenates its argument arrays in order.  It
    looks at no element inside them: undefined elements are kept. *)
Theorem merge_concat (A : Type) (xss : list (list A)) :
  Reduction.merge xss = List.concat xss /\
  List.length (Reduction.merge xss) =
    list_sum (List.map (@List.length A) xss).
Proof.
  assert (E : forall (memo : list A) (i : Z),
            reduce xss (fun m x _ => m ++ x) memo i = memo ++ List.concat xss).
  { induction xss as [|x xss IH]; intros memo i; simpl.
    - now rewrite app_nil_r.
    - unfold def, Reduction.list_Definable. now rewrite IH, app_assoc. }
  unfold Reduction.merge, Direct.spreadArg. rewrite E. simpl.
  split; [reflexivity|]. clear E.
  induction xss as [|x xss IH]; simpl; [reflexivity|].
  now rewrite length_app, IH.
Qed.

(** ** min, max and swap *)

Lemma min_from_numeric (s : list number) (r : number) :
  exists m,
    Direct.min_from (numeric s) (VNum r) = VNum m /\
    (m = r \/ In m s) /\
    num_le m r.
Proof.
  revert r; induction s as [|x s IH]; intros r; simpl.
  - exists r; repeat split; [now left|apply num_leb_refl].
  - rewrite num_ltb_leb. destruct (num_leb r x) eqn:Hrx; simpl.
    + exists r; repeat split; [now left|apply num_leb_refl].
    + destruct (IH x) as (m & E & Hm & Hle).
      exists m; repeat split; trivial.
      * right. destruct Hm; [left; congruence|now right].
      * unfold num_le in *. apply num_leb_total in Hrx.
        eapply num_leb_trans; eassumption.
Qed.

(** What [min] (line 344) does guarantee on a non-empty numeric
    sequence: it returns an element of the sequence that is not above
    the first element; and on a non-decreasing sequence, such as the
    source's example, it returns the first element, which is the
    smallest. *)
Theorem min_guarantee (x : number) (s : list number) :
  (exists m,
     Direct.min (numeric (x :: s)) = VNum m /\
     In m (x :: s) /\ num_le m x) /\
  (StronglySorted num_le (x :: s) ->
   Direct.min (numeric (x :: s)) = VNum x /\
   Forall (fun y => num_le x y) (x :: s)).
Proof.
  split.
  - unfold Direct.min, Infinity. simpl.
    rewrite num_ltb_leb. destruct (num_leb PosInf x) eqn:Hx; simpl.
    + exists x. destruct x; try discriminate.
      split; [reflexivity|split; [now left|reflexivity]].
    + destruct (min_from_numeric s x) as (m & E & Hm & Hle).
      exists m; repeat split; trivial.
      destruct Hm; [left; congruence|now right].
  - intros HS. inversion HS as [|? ? _ Hall]; subst.
    split; [|constructor; [apply num_leb_refl|exact Hall]].
    unfold Direct.min, Infinity. simpl.
    rewrite num_ltb_leb. destruct (num_leb PosInf x) eqn:Hx; simpl.
    + destruct x; try discriminate. reflexivity.
    + destruct s as [|y s]; [reflexivity|].
      inversion Hall as [|? ? Hxy _]; subst. simpl.
      rewrite num_ltb_leb. unfold num_le in Hxy. now rewrite Hxy.
Qed.

Lemma min_guarantee_witness :
  StronglySorted num_le [Fin 0; Fin 1; Fin 1; PosInf] /\
  Direct.min (numeric [Fin 0; Fin 1; Fin 1; PosInf]) = VNum (Fin 0).
Proof.
  assert (HS : StronglySorted num_le [Fin 0; Fin 1; Fin 1; PosInf])
    by (repeat constructor).
  split; [exact HS|].
  exact (proj1 (proj2 (min_guarantee (Fin 0) [Fin 1; Fin 1; PosInf]) HS)).
Defined.

(** [swap] (line 156) exchanges nothing, whatever the two indices:
    [map] (line 174) calls the callback with the element alone, the
    callback's position parameter is undefined and equals no index, and
    the result is the elements before the first undefined one, as they
    are. *)
Theorem swap_exchanges_nothing (a : list value) (i j : Z) :
  Direct.swap a i j = defined_prefix a /\
  (all_defined a -> Direct.swap a i j = a).
Proof.
  split; [apply swap_is_copy|].
  intros Ha. now rewrite swap_is_copy, defined_prefix_all.
Qed.

Lemma swap_exchanges_nothing_witness :
  all_defined (numeric [Fin 1; Fin 2; Fin 3; Fin 4; Fin 5]) /\
  Direct.swap (numeric [Fin 1; Fin 2; Fin 3; Fin 4; Fin 5]) 0 4 =
    numeric [Fin 1; Fin 2; Fin 3; Fin 4; Fin 5].
Proof.
  assert (Ha : all_defined (numeric [Fin 1; Fin 2; Fin 3; Fin 4; Fin 5]))
    by (repeat constructor).
  split; [exact Ha|].
  exact (proj2 (swap_exchanges_nothing
                  (numeric [Fin 1; Fin 2; Fin 3; Fin 4; Fin 5]) 0 4) Ha).
Defined.

(** ** More on quicksort *)

Lemma sorted_permutation_unique (r1 r2 : list number) :
  StronglySorted num_le r1 -> StronglySorted num_le r2 ->
  Permutation (List.map unsigned_zero r1) (List.map unsigned_zero r2) ->
  List.map unsigned_zero r1 = List.map unsigned_zero r2.
Proof.
  intros S1; revert r2; induction S1 as [|a r1 S1 IH Ha]; intros r2 S2 P.
  - simpl in *. apply Permutation_nil in P. now rewrite P.
  - destruct S2 as [|b r2 S2 Hb]; simpl in *.
    + symmetry in P. apply Permutation_nil in P. discriminate.
    + assert (Hab : unsigned_zero a = unsigned_zero b).
      { assert (Ia : In (unsigned_zero a)
                        (unsigned_zero b :: List.map unsigned_zero r2))
          by (eapply Permutation_in; [exact P|now left]).
        assert (Ib : In (unsigned_zero b)
                        (unsigned_zero a :: List.map unsigned_zero r1))
          by (eapply Permutation_in; [symmetry; exact P|now left]).
        destruct Ia as [E|Ia]; [now symmetry|].
        destruct Ib as [E|Ib]; [exact E|].
        apply in_map_iff in Ia. destruct Ia as (y & Ey & Hy).
        apply in_map_iff in Ib. destruct Ib as (z & Ez & Hz).
        rewrite Forall_forall in Ha, Hb.
        apply num_leb_antisym.
        - rewrite <- num_leb_unsigned_zero, <- Ez, num_leb_unsigned_zero.
          now apply Ha.
        - rewrite <- num_leb_unsigned_zero, <- Ey, num_leb_unsigned_zero.
          now apply Hb. }
      rewrite Hab in *. f_equal. apply IH; [assumption|].
      eapply Permutation_cons_inv; exact P.
Qed.

Lemma unsigned_zero_without_NegZero (r : list number) :
  ~ In NegZero r -> List.map unsigned_zero r = r.
Proof.
  induction r as [|x r IH]; intros Hr; simpl; [reflexivity|].
  rewrite IH by (intros Hin; apply Hr; now right).
  f_equal. destruct x; trivial. exfalso; apply Hr; now left.
Qed.

(** On every numeric sequence the filter-based quicksort (line 380) and
    the partition-based one (line 390) return permutations of each other
    that are the same array up to the sign of zeros: number by number
    the two results are equal for [===].  They are the same array when
    the sequence contains no [-0]. *)
Theorem quicksort_variants_agree (s : list number) :
  exists r1 r2,
    Direct.quicksort (numeric s) = Some (numeric r1) /\
    Direct.quicksort_partition (numeric s) = Some (numeric r2) /\
    Permutation r1 r2 /\
    List.map unsigned_zero r1 = List.map unsigned_zero r2 /\
    (~ In NegZero s -> r1 = r2).
Proof.
  destruct (quicksort_numeric (n := List.length s) s) as (r1 & E1 & P1 & S1);
    [lia|].
  destruct (quicksort_partition_numeric (n := List.length s) s)
    as (r2 & E2 & P2 & S2); [lia|].
  assert (P : Permutation r1 r2) by now rewrite <- P1, <- P2.
  assert (U : List.map unsigned_zero r1 = List.map unsigned_zero r2).
  { apply sorted_permutation_unique; trivial. now apply Permutation_map. }
  exists r1, r2.
  unfold Direct.quicksort, Direct.quicksort_partition, numeric.
  rewrite length_map. repeat split; trivial.
  - apply E1; lia.
  - apply E2; lia.
  - intros Hs.
    assert (I1 : List.map unsigned_zero r1 = r1).
    { apply unsigned_zero_without_NegZero. intros Hin. apply Hs.
      eapply Permutation_in; [symmetry; exact P1|exact Hin]. }
    assert (I2 : List.map unsigned_zero r2 = r2).
    { apply unsigned_zero_without_NegZero. intros Hin. apply Hs.
      eapply Permutation_in; [symmetry; exact P2|exact Hin]. }
    congruence.
Qed.

Lemma quicksort_variants_agree_witness :
  ~ In NegZero [Fin 3; Fin 0; Fin 3; NegInf] /\
  Direct.quicksort (numeric [Fin 3; Fin 0; Fin 3; NegInf]) =
  Direct.quicksort_partition (numeric [Fin 3; Fin 0; Fin 3; NegInf]).
Proof.
  assert (Hs : ~ In NegZero [Fin 3; Fin 0; Fin 3; NegInf])
    by (intros [H|[H|[H|[H|[]]]]]; discriminate).
  split; [exact Hs|].
  destruct (quicksort_variants_agree [Fin 3; Fin 0; Fin 3; NegInf])
    as (r1 & r2 & E1 & E2 & _ & _ & E).
  rewrite E1, E2, (E Hs). reflexivity.
Defined.

(** The two zeros compare equal and are two values: on [[0, -0]] the
    filter-based quicksort puts [-0] before the pivot, the partition-based
    one after it. *)
Remark quicksort_zero_signs :
  Direct.quicksort (numeric [Fin 0; NegZero]) =
    Some (numeric [NegZero; Fin 0]) /\
  Direct.quicksort_partition (numeric [Fin 0; NegZero]) =
    Some (numeric [Fin 0; NegZero]).
Proof. split; reflexivity. Qed.

(** quicksort (line 380) returns a non-decreasing numeric sequence as it
    is up to the sign of zeros, and exactly as it is when the sequence
    contains no [-0]; sorting twice gives the result of sorting once up
    to the sign of zeros, and the result has as many elements as the
    input. *)
Theorem quicksort_idempotent (s : list number) :
  (StronglySorted num_le s ->
   exists r,
     Direct.quicksort (numeric s) = Some (numeric r) /\
     List.map unsigned_zero r = List.map unsigned_zero s /\
     Permutation s r /\
     (~ In NegZero s -> r = s)) /\
  (exists r r',
     Direct.quicksort (numeric s) = Some (numeric r) /\
     Direct.quicksort (numeric r) = Some (numeric r') /\
     List.map unsigned_zero r' = List.map unsigned_zero r /\
     Permutation r r' /\
     List.length r = List.length s).
Proof.
  assert (Q : forall t, exists r,
            Direct.quicksort (numeric t) = Some (numeric r) /\
            Permutation t r /\ StronglySorted num_le r).
  { intros t.
    destruct (quicksort_numeric (n := List.length t) t) as (r & E & P & S);
      [lia|].
    exists r; repeat split; trivial.
    unfold Direct.quicksort, numeric. rewrite length_map. apply E; lia. }
  split.
  - intros Ss. destruct (Q s) as (r & E & P & Sr).
    assert (U : List.map unsigned_zero r = List.map unsigned_zero s).
    { apply sorted_permutation_unique; trivial.
      apply Permutation_map. now symmetry. }
    exists r; repeat split; trivial.
    intros Hs.
    assert (I1 : List.map unsigned_zero r = r).
    { apply unsigned_zero_without_NegZero. intros Hin. apply Hs.
      eapply Permutation_in; [symmetry; exact P|exact Hin]. }
    assert (I2 : List.map unsigned_zero s = s)
      by now apply unsigned_zero_without_NegZero.
    congruence.
  - destruct (Q s) as (r & E & P & Sr).
    destruct (Q r) as (r' & E' & P' & Sr').
    exists r, r'; repeat split; trivial.
    + apply sorted_permutation_unique; trivial.
      apply Permutation_map. now symmetry.
    + symmetry. now apply Permutation_length.
Qed.

Lemma quicksort_idempotent_witness :
  StronglySorted num_le [NegInf; Fin 2; Fin 2; Fin 5] /\
  ~ In NegZero [NegInf; Fin 2; Fin 2; Fin 5] /\
  Direct.quicksort (numeric [NegInf; Fin 2; Fin 2; Fin 5]) =
    Some (numeric [NegInf; Fin 2; Fin 2; Fin 5]).
Proof.
  assert (HS : StronglySorted num_le [NegInf; Fin 2; Fin 2; Fin 5])
    by (repeat constructor).
  assert (Hs : ~ In NegZero [NegInf; Fin 2; Fin 2; Fin 5])
    by (intros [H|[H|[H|[H|[]]]]]; discriminate).
  split; [exact HS|split; [exact Hs|]].
  destruct (proj1 (quicksort_idempotent [NegInf; Fin 2; Fin 2; Fin 5]) HS)
    as (r & E & _ & _ & Er).
  rewrite E, (Er Hs). reflexivity.
Defined.

(** quicksort (lines 380, 390) sorts the elements before the first
    undefined one and ignores the rest, whatever the comparisons answer
    and at every call depth. *)
Theorem quicksort_stops_at_undefined (lte gt lt : value -> value -> bool)
    (fuel : nat) (xs : list value) :
  Direct.quicksort_fuel lte gt fuel xs =
    Direct.quicksort_fuel lte gt fuel (defined_prefix xs) /\
  Direct.quicksort_partition_fuel lt fuel xs =
    Direct.quicksort_partition_fuel lt fuel (defined_prefix xs).
Proof.
  destruct fuel as [|k]; [split; reflexivity|].
  destruct xs as [|x xs]; [split; reflexivity|].
  simpl defined_prefix. destruct (def x) eqn:Dx.
  - assert (F : forall f, Direct.filter xs f =
                          Direct.filter (defined_prefix xs) f).
    { intros f. now rewrite !filter_prefix, defined_prefix_idem. }
    assert (R : forall f, Direct.reject xs f =
                          Direct.reject (defined_prefix xs) f).
    { intros f. now rewrite !reject_prefix, defined_prefix_idem. }
    split.
    + simpl Direct.quicksort_fuel. rewrite Dx. simpl truthy_nat.
      now rewrite !F.
    + simpl Direct.quicksort_partition_fuel. rewrite Dx. simpl truthy_nat.
      unfold Direct.partition. simpl tail. simpl head.
      now rewrite F, R.
  - split.
    + simpl Direct.quicksort_fuel. now rewrite Dx.
    + simpl Direct.quicksort_partition_fuel. now rewrite Dx.
Qed.

(** The partition-based quicksort (line 390) terminates on every finite
    sequence, whatever the comparison answers: [filter] and [reject] of
    the tail are shorter than the input, and every call depth above the
    number of elements returns the same result. *)
Theorem quicksort_partition_terminates (lt : value -> value -> bool)
    (xs : list value) :
  (forall fn : value -> bool,
     List.length (Direct.reject (tail xs) fn) <= List.length (tail xs) /\
     List.length (Direct.filter (tail xs) fn) <= List.length (tail xs)) /\
  (exists r, forall k,
     Direct.quicksort_partition_fuel lt (S (List.length xs) + k) xs = Some r).
Proof.
  split.
  - intros fn. split; [apply reject_shorter|apply filter_shorter].
  - destruct (quicksort_partition_fuel_enough lt (n := List.length xs) xs)
      as [r Hr]; [lia|].
    exists r. intros k. apply Hr. lia.
Qed.

(** ** Function combinators *)

(** [flow] (line 309) of a concatenated function sequence runs the first
    part and then the second; [compose] (line 331) runs the second part
    first.  With no function both return their input. *)
Theorem flow_compose_app (T : Type) (fs gs : list (T -> T)) (x : T) :
  Direct.flow (fs ++ gs) x = Direct.flow gs (Direct.flow fs x) /\
  Direct.compose (fs ++ gs) x = Direct.compose fs (Direct.compose gs x) /\
  Direct.flow [] x = x /\ Direct.compose [] x = x.
Proof.
  repeat split.
  - rewrite !flow_fold. apply fold_left_app.
  - rewrite !compose_fold. apply fold_right_app.
Qed.

(** [reverseArgs] (line 282) goes through the def-guarded [reverse]: the
    function receives the arguments before the first undefined one, in
    reverse order.  Applied twice it gives the function back on those
    arguments; and a partial application (line 256) of the reversed
    function fills the arguments from the end. *)
Theorem reverseArgs_partial (V R : Type) `{Definable V}
    (fn : list V -> R) (args newArgs : list V) :
  Direct.reverseArgs fn args = fn (rev (defined_prefix args)) /\
  Direct.reverseArgs (Direct.reverseArgs fn) args = fn (defined_prefix args) /\
  (all_defined args -> all_defined newArgs ->
   Direct.partial (Direct.reverseArgs fn) args newArgs =
   fn (rev newArgs ++ rev args)).
Proof.
  unfold Direct.reverseArgs, Direct.partial. repeat split.
  - now rewrite reverse_prefix.
  - destruct (reverse_reverse_prefix args) as [E _]. now rewrite E.
  - intros Ha Hn.
    assert (Han : all_defined (args ++ newArgs))
      by (apply Forall_app; now split).
    now rewrite reverse_prefix, (defined_prefix_all Han), rev_app_distr.
Qed.

Lemma reverseArgs_partial_witness :
  all_defined (numeric [Fin 100]) /\
  Direct.partial (Direct.reverseArgs (fun l : list value => l))
    (numeric [Fin 100]) (numeric [Fin 25]) =
  numeric [Fin 25; Fin 100].
Proof.
  assert (Ha : all_defined (numeric [Fin 100])) by (repeat constructor).
  assert (Hn : all_defined (numeric [Fin 25])) by (repeat constructor).
  split; [exact Ha|].
  exact (proj2 (proj2 (reverseArgs_partial (fun l : list value => l)
                         (numeric [Fin 100]) (numeric [Fin 25]))) Ha Hn).
Defined.

(** ** factorial and fib *)

Lemma factorial_fuel_nat (n : nat) :
  forall (acum : Z) (fuel : nat), n < fuel ->
  Direct.factorial_fuel fuel (Z.of_nat n) acum =
  Some (factorial_of n * acum)%Z.
Proof.
  induction n as [|n IH]; intros acum [|k] Hk; try lia.
  - change (Some acum = Some (1 * acum)%Z). f_equal. lia.
  - cbn [Direct.factorial_fuel].
    destruct (Z.eqb_spec (Z.of_nat (S n)) 0) as [E|_]; [lia|]. simpl negb.
    replace (Z.of_nat (S n) - 1)%Z with (Z.of_nat n) by lia.
    rewrite IH by lia. f_equal.
    cbn [factorial_of]. ring.
Qed.

(** [factorial] (line 363) of an integer from 0 to 18, where every
    product is an integer below 2^53 and so exact: every call depth above
    [x] returns [x!]; in particular [factorial 0] is 1. *)
Theorem factorial_small (x : Z) (fuel : nat) :
  (0 <= x <= 18)%Z -> Z.to_nat x < fuel ->
  Direct.factorial_fuel fuel x 1 = Some (factorial_of (Z.to_nat x)) /\
  (0 < factorial_of (Z.to_nat x) < 2 ^ 53)%Z.
Proof.
  intros Hx Hf. split.
  - rewrite <- (Z2Nat.id x) at 1 by lia.
    rewrite factorial_fuel_nat by assumption. f_equal. lia.
  - assert (H18 : Z.to_nat x <= 18) by lia.
    clear Hx Hf. revert H18. generalize (Z.to_nat x) as n. intros n.
    do 19 (destruct n as [|n]; [intros _; vm_compute; split; reflexivity|]).
    lia.
Qed.

Lemma factorial_small_witness :
  Direct.factorial_fuel 6 5 1 = Some 120%Z.
Proof.
  assert (Hx : (0 <= 5 <= 18)%Z) by lia.
  assert (Hf : Z.to_nat 5 < 6) by (simpl; lia).
  exact (proj1 (@factorial_small 5%Z 6 Hx Hf)).
Defined.

(** [factorial] (line 363) of a negative integer never reaches its base
    case: [x] moves away from 0, and no call depth returns. *)
Theorem factorial_negative (x acum : Z) (fuel : nat) :
  (x < 0)%Z -> Direct.factorial_fuel fuel x acum = None.
Proof.
  revert x acum; induction fuel as [|k IH]; intros x acum Hx;
    [reflexivity|].
  cbn [Direct.factorial_fuel].
  destruct (Z.eqb_spec x 0) as [E|_]; [lia|]. simpl negb.
  apply IH. lia.
Qed.

Lemma factorial_negative_witness :
  Direct.factorial_fuel 50 (-1) 1 = None.
Proof.
  assert (Hx : (-1 < 0)%Z) by lia.
  exact (@factorial_negative (-1)%Z 1%Z 50 Hx).
Defined.

Lemma fib_fuel_nat (n : nat) :
  forall m fuel, m <= n -> 1 <= m -> m <= fuel ->
  Direct.fib_fuel fuel (Z.of_nat m) = Some (fibonacci m).
Proof.
  induction n as [|n IH]; intros m [|k] Hm H1 Hf; try lia.
  cbn [Direct.fib_fuel].
  destruct (Z.ltb_spec 2 (Z.of_nat m)) as [H2|H2].
  - destruct m as [|[|m]]; try lia.
    replace (Z.of_nat (S (S m)) - 1)%Z with (Z.of_nat (S m)) by lia.
    replace (Z.of_nat (S (S m)) - 2)%Z with (Z.of_nat m) by lia.
    rewrite (IH (S m)), (IH m) by lia.
    reflexivity.
  - destruct m as [|[|[|m]]]; try lia; reflexivity.
Qed.

Lemma fibonacci_pair_spec (n : nat) :
  fibonacci_pair n = (fibonacci n, fibonacci (S n)).
Proof.
  induction n as [|n IH]; [reflexivity|].
  cbn [fibonacci_pair]. rewrite IH.
  change (fibonacci (S (S n))) with (fibonacci (S n) + fibonacci n)%Z.
  f_equal. lia.
Qed.

Lemma fibonacci_fst (n : nat) : fibonacci n = fst (fibonacci_pair n).
Proof. rewrite fibonacci_pair_spec. reflexivity. Qed.

Lemma fibonacci_monotone (n : nat) :
  (0 <= fibonacci n <= fibonacci (S n))%Z.
Proof.
  induction n as [|n IH]; [simpl; lia|].
  change (fibonacci (S (S n))) with (fibonacci (S n) + fibonacci n)%Z. lia.
Qed.

Lemma fibonacci_below (n m : nat) :
  n <= m -> (fibonacci n <= fibonacci m)%Z.
Proof.
  induction 1 as [|m _ IH]; [lia|].
  pose proof (fibonacci_monotone m). lia.
Qed.

(** [fib] (line 369) returns 1 for every integer up to 2, zero and the
    negative ones included, and the Fibonacci number of [x] for [x] from
    1 to 78, where every sum is an integer below 2^53 and so exact; a
    call depth of [x] is enough. *)
Theorem fib_fibonacci (x : Z) (fuel : nat) :
  ((x <= 2)%Z -> Direct.fib_fuel (S fuel) x = Some 1%Z) /\
  ((1 <= x <= 78)%Z -> Z.to_nat x <= fuel ->
   Direct.fib_fuel fuel x = Some (fibonacci (Z.to_nat x)) /\
   (fibonacci (Z.to_nat x) < 2 ^ 53)%Z).
Proof.
  split.
  - intros Hx. cbn [Direct.fib_fuel].
    destruct (Z.ltb_spec 2 x); [lia|reflexivity].
  - intros Hx Hf. split.
    + rewrite <- (Z2Nat.id x) at 1 by lia.
      apply (fib_fuel_nat (n := Z.to_nat x)); lia.
    + assert (H78 : Z.to_nat x <= 78) by lia.
      apply fibonacci_below in H78.
      rewrite (fibonacci_fst 78) in H78.
      remember (fst (fibonacci_pair 78)) as c eqn:Ec.
      assert (B : (c < 2 ^ 53)%Z) by (subst c; vm_compute; reflexivity).
      clear Ec. lia.
Qed.

Lemma fib_fibonacci_witness :
  Direct.fib_fuel 1 0 = Some 1%Z /\
  Direct.fib_fuel 15 15 = Some 610%Z.
Proof.
  assert (H0 : (0 <= 2)%Z) by lia.
  assert (H1 : (1 <= 15 <= 78)%Z) by lia.
  assert (H2 : Z.to_nat 15 <= 15) by (simpl; lia).
  split.
  - exact (proj1 (fib_fibonacci 0 0) H0).
  - exact (proj1 (proj2 (fib_fibonacci 15 15) H1 H2)).
Defined.
